(** * UHD sample converters and USRP1 bring-up: a shallow embedding

    The per-sample conversion kernels of [host/lib/convert/convert_common.hpp]
    and, from [host/lib/usrp/usrp1/usrp1_impl.cpp], device discovery, the
    property-tree population performed by the constructor of [usrp1_impl],
    the readers of the capabilities register and the EEPROM write-back are
    embedded as Rocq functions.  Machine integers are mathematical integers with the
    wrap-around of every C++ conversion written out; IEEE-754 values are
    [spec_float]s, binary32 for [float] and binary64 for [double]. *)

From Stdlib Require Import ZArith Lia List Bool QArith.
From Stdlib Require Import SpecFloat.
From stdpp Require Import base option list sorting strings pretty gmap.

Local Open Scope Z_scope.

(** ** Machine integers *)

(** Conversion to [boost::uint16_t]: reduction modulo [2^16]. *)
Definition to_uint16 (z : Z) : Z := z mod 2 ^ 16.

(** Conversion to [boost::uint32_t]: reduction modulo [2^32]. *)
Definition to_uint32 (z : Z) : Z := z mod 2 ^ 32.

(** Conversion of an integer to [boost::int16_t]: the value congruent to [z]
    modulo [2^16] that lies in [-2^15 .. 2^15 - 1]. *)
Definition to_int16 (z : Z) : Z := (z + 2 ^ 15) mod 2 ^ 16 - 2 ^ 15.

Definition int16_range (z : Z) : Prop := - 2 ^ 15 <= z < 2 ^ 15.
Definition uint16_range (z : Z) : Prop := 0 <= z < 2 ^ 16.
Definition uint32_range (z : Z) : Prop := 0 <= z < 2 ^ 32.

(** The value of the [n]-bit field of [w] that starts at bit [lo]. *)
Definition bit_field (w lo n : Z) : Z := Z.shiftr w lo mod 2 ^ n.

(** Reading an [n]-bit field as a two's-complement number. *)
Definition sign_extend (n v : Z) : Z :=
  (v + 2 ^ (n - 1)) mod 2 ^ n - 2 ^ (n - 1).

(** ** Complex samples *)

Record complex (A : Type) : Type := Complex { real : A; imag : A }.
Arguments Complex {A} _ _.
Arguments real {A} _.
Arguments imag {A} _.

(** [std::complex<boost::int16_t>] *)
Definition sc16_t := complex Z.
(** [std::complex<float>] and [std::complex<double>] *)
Definition fc32_t := complex spec_float.
Definition fc64_t := complex spec_float.
(** [boost::uint32_t] and [boost::uint16_t] *)
Definition item32_t := Z.
Definition item16_t := Z.

Definition sc16_wf (s : sc16_t) : Prop :=
  int16_range (real s) /\ int16_range (imag s).

(** ** Floating point *)

(** binary32 ([float]) and binary64 ([double]) arithmetic. *)
Definition f32_mul : spec_float -> spec_float -> spec_float := SFmul 24 128.
Definition f64_mul : spec_float -> spec_float -> spec_float := SFmul 53 1024.

(** Integer to floating conversion, as the usual arithmetic conversions
    perform on the integer operand of a mixed product. *)
Definition int_to_float (z : Z) : spec_float := binary_normalize 24 128 z 0 false.
Definition int_to_double (z : Z) : spec_float := binary_normalize 53 1024 z 0 false.

(** [float(d)] for a [double] [d]: rounding to binary32. *)
Definition double_to_float (d : spec_float) : spec_float :=
  match d with
  | S754_finite s m e => binary_round 24 128 s m e
  | _ => d
  end.

(** The implicit widening of a [float] to a [double]. *)
Definition float_to_double (f : spec_float) : spec_float :=
  match f with
  | S754_finite s m e => binary_round 53 1024 s m e
  | _ => f
  end.

(** The magnitude of the integral part of [m * 2^e]. *)
Definition integral_part (m : positive) (e : Z) : Z :=
  match e with
  | Z0 => Z.pos m
  | Z.pos _ => Z.shiftl (Z.pos m) e
  | Z.neg p => Z.shiftr (Z.pos m) (Z.pos p)
  end.

(** [boost::int16_t(x)] for a floating [x]: the fractional part is discarded;
    the conversion has no defined result when the value is not finite or the
    integral part is not representable in 16 bits. *)
Definition float_to_int16 (x : spec_float) : option Z :=
  match x with
  | S754_zero _ => Some 0
  | S754_finite s m e =>
      let z := cond_Zopp s (integral_part m e) in
      if (- 2 ^ 15 <=? z) && (z <? 2 ^ 15) then Some z else None
  | _ => None
  end.

(** ** The conversion kernels of convert_common.hpp *)

Definition sc16_to_item32 (num : sc16_t) (_ : spec_float) : item32_t :=
  let real := to_uint16 (real num) in
  let imag := to_uint16 (imag num) in
  Z.lor (to_uint32 (Z.shiftl (to_uint32 real) 16))
        (to_uint32 (Z.shiftl (to_uint32 imag) 0)).

Definition item32_to_sc16 (item : item32_t) (_ : spec_float) : sc16_t :=
  Complex (to_int16 (Z.shiftr item 16)) (to_int16 (Z.shiftr item 0)).

Definition fc32_to_item32 (num : fc32_t) (scale_factor : spec_float)
  : option item32_t :=
  match float_to_int16 (f32_mul (real num) scale_factor),
        float_to_int16 (f32_mul (imag num) scale_factor) with
  | Some re, Some im =>
      let real := to_uint16 re in
      let imag := to_uint16 im in
      Some (Z.lor (to_uint32 (Z.shiftl (to_uint32 real) 16))
                  (to_uint32 (Z.shiftl (to_uint32 imag) 0)))
  | _, _ => None
  end.

Definition item32_to_fc32 (item : item32_t) (scale_factor : spec_float)
  : fc32_t :=
  Complex (f32_mul (int_to_float (to_int16 (Z.shiftr item 16))) scale_factor)
          (f32_mul (int_to_float (to_int16 (Z.shiftr item 0))) scale_factor).

Definition fc64_to_item32 (num : fc64_t) (scale_factor : spec_float)
  : option item32_t :=
  match float_to_int16 (f64_mul (real num) scale_factor),
        float_to_int16 (f64_mul (imag num) scale_factor) with
  | Some re, Some im =>
      let real := to_uint16 re in
      let imag := to_uint16 im in
      Some (Z.lor (to_uint32 (Z.shiftl (to_uint32 real) 16))
                  (to_uint32 (Z.shiftl (to_uint32 imag) 0)))
  | _, _ => None
  end.

Definition item32_to_fc64 (item : item32_t) (scale_factor : spec_float)
  : fc64_t :=
  Complex
    (float_to_double (double_to_float
       (f64_mul (int_to_double (to_int16 (Z.shiftr item 16))) scale_factor)))
    (float_to_double (double_to_float
       (f64_mul (int_to_double (to_int16 (Z.shiftr item 0))) scale_factor))).

(** In the 16-bit kernels the operands of [<<] and [|] are promoted to [int];
    the [return] converts the result to [boost::uint16_t]. *)
Definition sc16_to_item16 (num : sc16_t) (_ : spec_float) : item16_t :=
  let real := to_uint16 (real num) in
  let imag := to_uint16 (imag num) in
  to_uint16 (Z.lor (Z.shiftl real 8) (Z.shiftl imag 0)).

Definition item16_to_sc16 (item : item16_t) (_ : spec_float) : sc16_t :=
  Complex (to_int16 (Z.shiftr item 8)) (to_int16 (Z.shiftr item 0)).

Definition fc32_to_item16 (num : fc32_t) (scale_factor : spec_float)
  : option item16_t :=
  match float_to_int16 (f32_mul (real num) scale_factor),
        float_to_int16 (f32_mul (imag num) scale_factor) with
  | Some re, Some im =>
      let real := to_uint16 re in
      let imag := to_uint16 im in
      Some (to_uint16 (Z.lor (Z.shiftl real 8) (Z.shiftl imag 0)))
  | _, _ => None
  end.

Definition item16_to_fc32 (item : item16_t) (scale_factor : spec_float)
  : fc32_t :=
  Complex (f32_mul (int_to_float (to_int16 (Z.shiftr item 8))) scale_factor)
          (f32_mul (int_to_float (to_int16 (Z.shiftr item 0))) scale_factor).

Definition fc64_to_item16 (num : fc64_t) (scale_factor : spec_float)
  : option item16_t :=
  match float_to_int16 (f64_mul (real num) scale_factor),
        float_to_int16 (f64_mul (imag num) scale_factor) with
  | Some re, Some im =>
      let real := to_uint16 re in
      let imag := to_uint16 im in
      Some (to_uint16 (Z.lor (Z.shiftl real 8) (Z.shiftl imag 0)))
  | _, _ => None
  end.

Definition item16_to_fc64 (item : item16_t) (scale_factor : spec_float)
  : fc64_t :=
  Complex
    (float_to_double (double_to_float
       (f64_mul (int_to_double (to_int16 (Z.shiftr item 8))) scale_factor)))
    (float_to_double (double_to_float
       (f64_mul (int_to_double (to_int16 (Z.shiftr item 0))) scale_factor))).

(** ** The exact value of a floating-point number, and truncation *)

Definition is_finite (x : spec_float) : bool :=
  match x with
  | S754_zero _ | S754_finite _ _ _ => true
  | _ => false
  end.

(** The rational number a finite [spec_float] denotes: [(-1)^s * m * 2^e]. *)
Definition SF2Q (x : spec_float) : Q :=
  match x with
  | S754_finite s m e =>
      match e with
      | Z0 => Qmake (cond_Zopp s (Z.pos m)) 1
      | Z.pos p => Qmake (cond_Zopp s (Z.pos m * 2 ^ Z.pos p)) 1
      | Z.neg p => Qmake (cond_Zopp s (Z.pos m)) (2 ^ p)
      end
  | _ => Qmake 0 1
  end.

(** Truncation toward zero of a rational: the quotient of numerator by
    denominator, rounded toward zero. *)
Definition truncate_toward_zero (q : Q) : Z := Z.quot (Qnum q) (Z.pos (Qden q)).

(** [z] is the integer component the specification prescribes for the
    product [p]: [p] is a number, [z] is its truncation toward zero, and [z]
    is a 16-bit two's-complement integer. *)
Definition truncated_component (p : spec_float) (z : Z) : Prop :=
  is_finite p = true /\ z = truncate_toward_zero (SF2Q p) /\ int16_range z.

(** Decimal constants of the specification's examples, as the correctly
    rounded quotients a compiler produces for the literals. *)
Definition f32_1_9999 : spec_float :=
  SFdiv 24 128 (int_to_float 19999) (int_to_float 10000).
Definition f64_1_9999 : spec_float :=
  SFdiv 53 1024 (int_to_double 19999) (int_to_double 10000).
Definition f32_1_0 : spec_float := int_to_float 1.
Definition f64_1_0 : spec_float := int_to_double 1.
Definition f64_0_1 : spec_float :=
  SFdiv 53 1024 (int_to_double 1) (int_to_double 10).
Definition f64_16_0 : spec_float := int_to_double 16.
Definition f64_32_0 : spec_float := int_to_double 32.

(** ** Significand precision *)

(** Number of trailing zero bits of a mantissa. *)
Fixpoint trailing_zeros (m : positive) : Z :=
  match m with
  | xO p => 1 + trailing_zeros p
  | _ => 0
  end.

(** Number of significand bits a value needs: the distance from the leading
    one bit of the mantissa to its last one bit, both included. *)
Definition significand_width (x : spec_float) : Z :=
  match x with
  | S754_finite _ m _ => Z.pos (digits2_pos m) - trailing_zeros m
  | _ => 0
  end.

(** [c] denotes the same number as [f]: equal signs, and the mantissa of [c]
    is the mantissa of [f] shifted left by the difference of the exponents. *)
Definition same_number (f c : spec_float) : Prop :=
  match f, c with
  | S754_finite s m e, S754_finite s' m' e' =>
      s = s' /\ e' <= e /\ Z.pos m' = Z.pos m * 2 ^ (e - e')
  | _, _ => f = c
  end.

(** The component [c] of a complex-floating-64 sample is the product [p]
    rounded to binary32 and then widened without change of value. *)
Definition through_single_precision (p c : spec_float) : Prop :=
  c = float_to_double (double_to_float p) /\
  valid_binary 24 128 (double_to_float p) = true /\
  same_number (double_to_float p) c /\
  significand_width c <= 24.

(** ** The property tree *)

(** Modelled from the spec: [fs_path], whose declaration is not part of the
    sources at hand.  A path is the ordered sequence of its non-empty
    segments, the root being the empty sequence; the operator [/] of the
    source joins two paths and is list concatenation here, a literal such as
    ["gains/pga/range"] standing for its three segments. *)
Definition fs_path := list string.

(** Modelled from the spec: the error kinds of the property tree. *)
Inductive tree_error : Set :=
  | AlreadyExists
  | NotFound
  | TypeMismatch
  | NotInitialized
  | AlreadyPublished
  | HardwareWriteError.

Inductive result (A : Type) : Type :=
  | Ok (a : A)
  | Err (e : tree_error).
Arguments Ok {A} _.
Arguments Err {A} _.

Module property_tree.
Section nodes.
Context {value tag world : Type} `{!EqDecision tag}.
Variable type_of : value -> tag.

(** Modelled from the spec: a property node (the property tree
    implementation is not part of the sources at hand).  The node of a path
    records the type chosen at creation, the optional stored value, the
    coercions and subscribers in registration order, and at most one
    publisher.  Subscribers act on the hardware state [world] and may fail;
    a publisher samples it. *)
Record node : Type := Node {
  node_type : tag;
  current : option value;
  coercions : list (value -> value);
  subscribers : list (value -> world -> option world);
  publisher : option (world -> value)
}.

Definition tree : Type := gmap fs_path node.

Definition empty_node (ty : tag) : node :=
  Node ty None [] [] None.

(** Modelled from the spec: [create<T>(path)]. *)
Definition create (ty : tag) (p : fs_path) (t : tree) : result tree :=
  match t !! p with
  | Some n => if decide (node_type n = ty) then Ok t else Err AlreadyExists
  | None => Ok (<[p := empty_node ty]> t)
  end.

(** Modelled from the spec: [access<T>(path)]. *)
Definition access (ty : tag) (p : fs_path) (t : tree) : result node :=
  match t !! p with
  | Some n => if decide (node_type n = ty) then Ok n else Err TypeMismatch
  | None => Err NotFound
  end.

(** Modelled from the spec: [coerce], [subscribe] and [publish] append to the
    lists of an existing node; a second publisher is refused. *)
Definition coerce (p : fs_path) (f : value -> value) (t : tree) : result tree :=
  match t !! p with
  | Some n =>
      Ok (<[p := Node (node_type n) (current n) (coercions n ++ [f])
                      (subscribers n) (publisher n)]> t)
  | None => Err NotFound
  end.

Definition subscribe (p : fs_path) (f : value -> world -> option world)
    (t : tree) : result tree :=
  match t !! p with
  | Some n =>
      Ok (<[p := Node (node_type n) (current n) (coercions n)
                      (subscribers n ++ [f]) (publisher n)]> t)
  | None => Err NotFound
  end.

Definition publish (p : fs_path) (f : world -> value) (t : tree) : result tree :=
  match t !! p with
  | Some n =>
      match publisher n with
      | Some _ => Err AlreadyPublished
      | None =>
          Ok (<[p := Node (node_type n) (current n) (coercions n)
                          (subscribers n) (Some f)]> t)
      end
  | None => Err NotFound
  end.

(** Coercions run left to right. *)
Definition run_coercions (cs : list (value -> value)) (v : value) : value :=
  foldl (fun acc c => c acc) v cs.

(** Subscribers run in registration order; the first failure stops the run
    and leaves the effects of the earlier subscribers in place. *)
Fixpoint run_subscribers (ss : list (value -> world -> option world))
    (v : value) (w : world) : world * option tree_error :=
  match ss with
  | [] => (w, None)
  | s :: ss' =>
      match s v w with
      | Some w' => run_subscribers ss' v w'
      | None => (w, Some HardwareWriteError)
      end
  end.

(** Modelled from the spec: [get(path)]. *)
Definition get (p : fs_path) (st : tree * world) : result value :=
  match fst st !! p with
  | Some n =>
      match publisher n with
      | Some f => Ok (f (snd st))
      | None =>
          match current n with
          | Some v => Ok v
          | None => Err NotInitialized
          end
      end
  | None => Err NotFound
  end.

(** Modelled from the spec: [set(path, value)].  The result is the state
    after the call together with the error surfaced to the caller, if any. *)
Definition set (p : fs_path) (v : value) (st : tree * world)
  : (tree * world) * option tree_error :=
  match fst st !! p with
  | Some n =>
      if decide (type_of v = node_type n) then
        let v' := run_coercions (coercions n) v in
        let t' := <[p := Node (node_type n) (Some v') (coercions n)
                              (subscribers n) (publisher n)]> (fst st) in
        let '(w', e) := run_subscribers (subscribers n) v' (snd st) in
        ((t', w'), e)
      else (st, Some TypeMismatch)
  | None => (st, Some NotFound)
  end.

End nodes.
End property_tree.

(** ** Bring-up of the USRP1 property tree *)

(** The operations the constructor of [usrp1_impl] performs on the tree. *)
Inductive tree_op : Type :=
  | op_create (p : fs_path)
  | op_access (p : fs_path).

(** What the constructor reads from its environment: the capabilities
    register, the subdevice names each daughterboard manager reports, and the
    paths [dboard_manager::populate_prop_tree_from_subdev] creates, relative
    to the subtree it is given. *)
Record usrp1_env : Type := {
  FR_RB_CAPS : Z;
  get_rx_subdev_names : string -> list string;
  get_tx_subdev_names : string -> list string;
  populate_prop_tree_from_subdev : string -> bool -> string -> list fs_path
}.

Definition get_num_ddcs (env : usrp1_env) : nat :=
  Z.to_nat (Z.land (Z.shiftr (FR_RB_CAPS env) 0) 7).

Definition get_num_ducs (env : usrp1_env) : nat :=
  Z.to_nat (Z.land (Z.shiftr (FR_RB_CAPS env) 4) 7).

Definition mb_path : fs_path := ["mboards"; "0"]%string.

(** The keys of [_dbc], in insertion order. *)
Definition dbc_keys : list string := ["A"; "B"]%string.

Definition codec_ops (db : string) : list tree_op :=
  let rx_codec_path := mb_path ++ ["rx_codecs"; db]%string in
  let tx_codec_path := mb_path ++ ["tx_codecs"; db]%string in
  [ op_create (rx_codec_path ++ ["name"]%string);
    op_create (rx_codec_path ++ ["gains"; "pga"; "range"]%string);
    op_create (rx_codec_path ++ ["gains"; "pga"; "value"]%string);
    op_create (tx_codec_path ++ ["name"]%string);
    op_create (tx_codec_path ++ ["gains"; "pga"; "range"]%string);
    op_create (tx_codec_path ++ ["gains"; "pga"; "value"]%string) ].

Definition rx_dsp_ops (dspno : nat) : list tree_op :=
  let rx_dsp_path := mb_path ++ ["rx_dsps"%string; pretty dspno] in
  [ op_create (rx_dsp_path ++ ["rate"; "value"]%string);
    op_create (rx_dsp_path ++ ["freq"; "value"]%string);
    op_create (rx_dsp_path ++ ["freq"; "range"]%string);
    op_create (rx_dsp_path ++ ["stream_cmd"]%string) ]
  ++ (if decide (dspno = 0%nat)
      then [op_access (rx_dsp_path ++ ["stream_cmd"]%string)] else []).

Definition tx_dsp_ops (dspno : nat) : list tree_op :=
  let tx_dsp_path := mb_path ++ ["tx_dsps"%string; pretty dspno] in
  [ op_create (tx_dsp_path ++ ["rate"; "value"]%string);
    op_create (tx_dsp_path ++ ["freq"; "value"]%string);
    op_create (tx_dsp_path ++ ["freq"; "range"]%string) ].

(** A subtree view prefixes every operation with the path of the view. *)
Definition subtree_ops (root : fs_path) (rel : list fs_path) : list tree_op :=
  map (fun p => op_create (root ++ p)) rel.

Definition dboard_ops (env : usrp1_env) (db : string) : list tree_op :=
  [ op_create (mb_path ++ ["dboards"; db; "rx_eeprom"]%string);
    op_create (mb_path ++ ["dboards"; db; "tx_eeprom"]%string);
    op_create (mb_path ++ ["dboards"; db; "gdb_eeprom"]%string);
    op_create (mb_path ++ ["dboards"; db; "iface"]%string) ]
  ++ flat_map (fun name =>
       subtree_ops (mb_path ++ ["dboards"; db; "rx_frontends"; name]%string)
                   (populate_prop_tree_from_subdev env db false name))
       (get_rx_subdev_names env db)
  ++ flat_map (fun name =>
       subtree_ops (mb_path ++ ["dboards"; db; "tx_frontends"; name]%string)
                   (populate_prop_tree_from_subdev env db true name))
       (get_tx_subdev_names env db).

(** The tree operations of [usrp1_impl::usrp1_impl], in program order. *)
Definition usrp1_impl_tree_ops (env : usrp1_env) : list tree_op :=
  [ op_create ["name"]%string;
    op_create (mb_path ++ ["name"]%string);
    op_create (mb_path ++ ["load_eeprom"]%string);
    op_create (mb_path ++ ["eeprom"]%string);
    op_create (mb_path ++ ["tick_rate"]%string) ]
  ++ flat_map codec_ops dbc_keys
  ++ [ op_create (mb_path ++ ["sensors"]%string);
       op_create (mb_path ++ ["rx_subdev_spec"]%string);
       op_create (mb_path ++ ["tx_subdev_spec"]%string);
       op_create (mb_path ++ ["rx_dsps"]%string) ]
  ++ flat_map rx_dsp_ops (seq 0 (get_num_ddcs env))
  ++ [ op_create (mb_path ++ ["tx_dsps"]%string) ]
  ++ flat_map tx_dsp_ops (seq 0 (get_num_ducs env))
  ++ [ op_create (mb_path ++ ["time"; "now"]%string);
       op_create (mb_path ++ ["clock_source"; "options"]%string);
       op_create (mb_path ++ ["time_source"; "options"]%string);
       op_create (mb_path ++ ["clock_source"; "value"]%string);
       op_create (mb_path ++ ["time_source"; "value"]%string) ]
  ++ flat_map (dboard_ops env) dbc_keys.

Definition created_paths (ops : list tree_op) : list fs_path :=
  omap (fun op => match op with op_create p => Some p | op_access _ => None end) ops.

(** The groups of the bring-up order. *)
Inductive node_group : Set :=
  | Capability
  | Clock
  | Codec
  | Frontend
  | DspStage
  | Time
  | Daughterboard.

Definition group_rank (g : node_group) : nat :=
  match g with
  | Capability => 0
  | Clock => 1
  | Codec => 2
  | Frontend => 3
  | DspStage => 4
  | Time => 5
  | Daughterboard => 6
  end.

Definition one_of (names : list string) (s : string) : bool :=
  bool_decide (s ∈ names).

(** The group of a motherboard node, decided by the first segment below the
    motherboard path, following the sections of the constructor.  The
    placeholder node [sensors] belongs to none of the seven groups. *)
Definition group_of_segment (seg : string) : option node_group :=
  if one_of ["name"; "load_eeprom"; "eeprom"]%string seg then Some Capability
  else if one_of ["tick_rate"]%string seg then Some Clock
  else if one_of ["rx_codecs"; "tx_codecs"]%string seg then Some Codec
  else if one_of ["rx_subdev_spec"; "tx_subdev_spec"]%string seg then Some Frontend
  else if one_of ["rx_dsps"; "tx_dsps"]%string seg then Some DspStage
  else if one_of ["time"; "clock_source"; "time_source"]%string seg then Some Time
  else if one_of ["dboards"]%string seg then Some Daughterboard
  else None.

Definition group_of_path (p : fs_path) : option node_group :=
  match p with
  | [seg] => if one_of ["name"]%string seg then Some Capability else None
  | a :: b :: seg :: _ =>
      if decide ([a; b] = mb_path) then group_of_segment seg else None
  | _ => None
  end.

(** The ranks of the groups of the created nodes, in creation order. *)
Definition ranks_of (ops : list tree_op) : list nat :=
  omap (fun p => group_rank <$> group_of_path p) (created_paths ops).

(** A list of ranks is sorted and lies between two bounds. *)
Definition sorted_between (lo hi : nat) (l : list nat) : Prop :=
  StronglySorted le l /\ Forall (fun x => lo <= x <= hi)%nat l.

Definition creation_ranks (env : usrp1_env) : list nat :=
  ranks_of (usrp1_impl_tree_ops env).

(** A created path is accounted for: it is the placeholder [sensors] or it
    belongs to one of the groups. *)
Definition classified (p : fs_path) : Prop :=
  p = mb_path ++ ["sensors"%string] \/ is_Some (group_of_path p).

(** ** The capabilities register *)

Definition has_rx_halfband (env : usrp1_env) : bool :=
  negb (Z.land (Z.shiftr (FR_RB_CAPS env) 3) 1 =? 0).

Definition has_tx_halfband (env : usrp1_env) : bool :=
  negb (Z.land (Z.shiftr (FR_RB_CAPS env) 7) 1 =? 0).

(** The register layout drawn above [usrp1_impl::get_num_ddcs]: bits 2-0 the
    number of DDCs, bit 3 the rx halfband flag, bits 6-4 the number of DUCs,
    bit 7 the tx halfband flag, bits 31-8 reserved. *)
Definition caps_register (reserved : Z) (tx_hb : bool) (ducs : Z)
    (rx_hb : bool) (ddcs : Z) : Z :=
  reserved * 2 ^ 8 + Z.b2z tx_hb * 2 ^ 7 + ducs * 2 ^ 4
  + Z.b2z rx_hb * 2 ^ 3 + ddcs.

Definition accessed_paths (ops : list tree_op) : list fs_path :=
  omap (fun op => match op with op_access p => Some p | op_create _ => None end) ops.

(** ** Discovery *)

Definition USRP1_VENDOR_ID : Z := 0xfffe.
Definition USRP1_PRODUCT_ID : Z := 0x0002.
Definition FX2_VENDOR_ID : Z := 0x04b4.
Definition FX2_PRODUCT_ID : Z := 0x8613.

(** [uhd::device_addr_t]: a dictionary from keys to values. *)
Definition device_addr_t := gmap string string.

(** What discovery asks of the USB side: the handles enumerated for a vendor
    and product id on the current bus, the serial of a handle, whether a
    control transport can be made for a handle ([false] when
    [usb_control::make] throws because the device is claimed), the bus after
    firmware has been loaded into a device, the location of an image
    ([None] when [find_image_path] throws), and the name stored in the
    motherboard EEPROM of a device. *)
Record usb_env (handle bus : Type) : Type := {
  get_device_list : bus -> Z -> Z -> list handle;
  get_serial : handle -> string;
  usb_control_make : bus -> handle -> bool;
  usrp_load_firmware : handle -> string -> bus -> bus;
  find_image_path : string -> option string;
  mb_eeprom_name : bus -> handle -> string
}.
Arguments get_device_list {handle bus} _ _ _ _.
Arguments get_serial {handle bus} _ _.
Arguments usb_control_make {handle bus} _ _ _.
Arguments usrp_load_firmware {handle bus} _ _ _ _.
Arguments find_image_path {handle bus} _ _.
Arguments mb_eeprom_name {handle bus} _ _ _.

Definition has_key (d : device_addr_t) (k : string) : bool :=
  bool_decide (is_Some (d !! k)).

(** [d[k]] on a key that is present, and [d.get(k, def)]. *)
Definition dict_get (d : device_addr_t) (k def : string) : string :=
  default def (d !! k).

Section discovery.
Context {handle bus : Type}.
Variable usb : usb_env handle bus.

(** The first loop of [usrp1_find]: load the firmware into every device that
    can be opened.  The result is [None] when the firmware image cannot be
    located, in which case [usrp1_find] returns at once. *)
Fixpoint load_firmware_loop (hint : device_addr_t) (handles : list handle)
    (b : bus) : option bus :=
  match handles with
  | [] => Some b
  | h :: rest =>
      match find_image_path usb (dict_get hint "fw" "usrp1_fw.ihx") with
      | None => None
      | Some usrp1_fw_image =>
          if usb_control_make usb b h
          then load_firmware_loop hint rest
                 (usrp_load_firmware usb h usrp1_fw_image b)
          else load_firmware_loop hint rest b
      end
  end.

Definition new_addr (b : bus) (h : handle) : device_addr_t :=
  <["serial" := get_serial usb h]>
    (<["name" := mb_eeprom_name usb b h]>
       (<["type" := "usrp1"%string]> (∅ : device_addr_t))).

(** The test that decides whether a device is reported. *)
Definition hint_matches (hint addr : device_addr_t) : bool :=
  (negb (has_key hint "name")
   || bool_decide (dict_get hint "name" "" = dict_get addr "name" ""))
  && (negb (has_key hint "serial")
      || bool_decide (dict_get hint "serial" "" = dict_get addr "serial" "")).

(** The second loop of [usrp1_find]. *)
Fixpoint report_loop (hint : device_addr_t) (b : bus) (handles : list handle)
    (usrp1_addrs : list device_addr_t) : list device_addr_t :=
  match handles with
  | [] => usrp1_addrs
  | h :: rest =>
      if usb_control_make usb b h then
        if hint_matches hint (new_addr b h)
        then report_loop hint b rest (usrp1_addrs ++ [new_addr b h])
        else report_loop hint b rest usrp1_addrs
      else report_loop hint b rest usrp1_addrs
  end.

(** [usrp1_find]: the addresses found and the bus it leaves behind. *)
Definition usrp1_find (hint : device_addr_t) (b : bus)
  : list device_addr_t * bus :=
  if has_key hint "type" && negb (bool_decide (dict_get hint "type" "" = "usrp1"%string))
  then ([], b)
  else if has_key hint "addr" then ([], b)
  else
    let vid := if has_key hint "uninit" then FX2_VENDOR_ID else USRP1_VENDOR_ID in
    let pid := if has_key hint "uninit" then FX2_PRODUCT_ID else USRP1_PRODUCT_ID in
    match load_firmware_loop hint (get_device_list usb b vid pid) b with
    | None => ([], b)
    | Some b' =>
        (report_loop hint b'
           (get_device_list usb b' USRP1_VENDOR_ID USRP1_PRODUCT_ID) [], b')
    end.
End discovery.

(** ** Daughterboard EEPROM addresses *)

Section db_eeprom.
(** The constants of usrp_i2c_addr.h, which is not among the sources. *)
Variables I2C_ADDR_RX_A I2C_ADDR_RX_B I2C_ADDR_TX_A I2C_ADDR_TX_B : Z.

(** The addresses the constructor loads the rx, tx and gdb EEPROM of a
    daughterboard slot from. *)
Definition dboard_eeprom_load_addrs (db : string) : Z * Z * Z :=
  (if bool_decide (db = "A"%string) then I2C_ADDR_RX_A else I2C_ADDR_RX_B,
   if bool_decide (db = "A"%string) then I2C_ADDR_TX_A else I2C_ADDR_TX_B,
   if bool_decide (db = "A"%string)
   then Z.lxor I2C_ADDR_TX_A 5 else Z.lxor I2C_ADDR_TX_B 5).

(** [usrp1_impl::set_db_eeprom]: the addresses it stores the EEPROM to, in
    program order. *)
Definition set_db_eeprom (db type : string) : list Z :=
  (if bool_decide (type = "rx"%string)
   then [if bool_decide (db = "A"%string) then I2C_ADDR_RX_A else I2C_ADDR_RX_B]
   else [])
  ++ (if bool_decide (type = "tx"%string)
      then [if bool_decide (db = "A"%string) then I2C_ADDR_TX_A else I2C_ADDR_TX_B]
      else [])
  ++ (if bool_decide (type = "gdb"%string)
      then [if bool_decide (db = "A"%string)
            then Z.lxor I2C_ADDR_TX_A 5 else Z.lxor I2C_ADDR_TX_B 5]
      else []).
End db_eeprom.

(** A small bus for examples: three initialised devices, the second of which
    is claimed by another process, and one uninitialised device; the bus
    state counts the firmware loads. *)
Definition example_usb : usb_env nat nat := {|
  get_device_list := fun _ vid _ =>
    if vid =? USRP1_VENDOR_ID then [1; 2; 3]%nat else [7]%nat;
  get_serial := fun h => pretty h;
  usb_control_make := fun _ h => negb (Nat.eqb h 2);
  usrp_load_firmware := fun _ _ b => S b;
  find_image_path := fun name =>
    if bool_decide (name = "usrp1_fw.ihx"%string)
    then Some "/usr/share/uhd/images/usrp1_fw.ihx"%string else None;
  mb_eeprom_name := fun _ _ => "lab"%string
|}.

(** ** After the tree is populated *)

(** The segment of [q] right below [p], when [q] lies strictly below [p]. *)
Definition child_segment (p q : fs_path) : option string :=
  match drop (length p) q with
  | seg :: _ => if decide (take (length p) q = p) then Some seg else None
  | [] => None
  end.

Definition string_le (a b : string) : Prop := String.leb a b = true.

#[global] Instance string_le_dec (a b : string) : Decision (string_le a b).
Proof. unfold string_le. apply _. Defined.

(** Modelled from the spec: [list(path)] of the property tree, which is not
    among the sources: the names of the immediate children of [path], each
    once, in lexicographic order; empty for a leaf and for a path that does
    not exist. *)
Definition tree_list (nodes : list fs_path) (p : fs_path) : list string :=
  merge_sort string_le (remove_dups (omap (child_segment p) nodes)).

(** The accesses of the last part of the constructor, which sets the host
    rate of every DSP listed under [rx_dsps] and [tx_dsps] and then the
    subdevice specifications, on the tree built so far. *)
Definition post_init_ops (env : usrp1_env) : list tree_op :=
  let nodes := created_paths (usrp1_impl_tree_ops env) in
  map (fun name =>
         op_access (mb_path ++ ["rx_dsps"%string; name; "rate"%string; "value"%string]))
      (tree_list nodes (mb_path ++ ["rx_dsps"%string]))
  ++ map (fun name =>
         op_access (mb_path ++ ["tx_dsps"%string; name; "rate"%string; "value"%string]))
      (tree_list nodes (mb_path ++ ["tx_dsps"%string]))
  ++ (if decide (0 < length (tree_list nodes (mb_path ++ ["rx_dsps"%string])))%nat
      then [op_access (mb_path ++ ["rx_subdev_spec"%string])] else [])
  ++ (if decide (0 < length (tree_list nodes (mb_path ++ ["tx_dsps"%string])))%nat
      then [op_access (mb_path ++ ["tx_subdev_spec"%string])] else []).

(** Every access finds its node: it names a path in [seen] or one created
    earlier in the sequence. *)
Fixpoint accesses_found (seen : list fs_path) (ops : list tree_op) : Prop :=
  match ops with
  | [] => True
  | op_create p :: rest => accesses_found (p :: seen) rest
  | op_access p :: rest => p ∈ seen /\ accesses_found seen rest
  end.

(** The part of the constructor that creates a path, counted from 0: the
    identity and clock nodes, the codec loop, the nodes before the receive
    DSP loop, that loop, the [tx_dsps] node, the transmit DSP loop, the time
    nodes, the daughterboard loop. *)
Definition creation_block (p : fs_path) : nat :=
  match p with
  | _ :: _ :: seg :: rest =>
      if one_of ["rx_codecs"; "tx_codecs"]%string seg then 1
      else if one_of ["sensors"; "rx_subdev_spec"; "tx_subdev_spec"]%string seg then 2
      else if one_of ["rx_dsps"]%string seg
           then match rest with [] => 2 | _ => 3 end
      else if one_of ["tx_dsps"]%string seg
           then match rest with [] => 4 | _ => 5 end
      else if one_of ["time"; "clock_source"; "time_source"]%string seg then 6
      else if one_of ["dboards"]%string seg then 7
      else 0
  | _ => 0
  end%nat.

(** Within a daughterboard: the EEPROM and interface nodes, the receive
    frontends, the transmit frontends. *)
Definition frontend_block (p : fs_path) : nat :=
  match p !! 4%nat with
  | Some seg =>
      if one_of ["rx_frontends"]%string seg then 1
      else if one_of ["tx_frontends"]%string seg then 2 else 0
  | None => 0
  end%nat.

(** A device for examples: two DDCs, two DUCs, a transmit halfband filter,
    and daughterboards with two receive subdevices and one transmit
    subdevice each. *)
Definition example_env : usrp1_env := {|
  FR_RB_CAPS := 0xABCDEFA2;
  get_rx_subdev_names := fun _ => ["A"; "B"]%string;
  get_tx_subdev_names := fun _ => ["0"]%string;
  populate_prop_tree_from_subdev := fun _ _ _ =>
    [["name"]; ["gains"; "pga"; "value"]]%string
|}.

(** ** Bit-level facts about the integer conversions *)

Lemma to_uint16_range z : uint16_range (to_uint16 z).
Proof. unfold uint16_range, to_uint16. apply Z.mod_pos_bound. lia. Qed.

Lemma to_uint32_range z : uint32_range (to_uint32 z).
Proof. unfold uint32_range, to_uint32. apply Z.mod_pos_bound. lia. Qed.

Lemma to_int16_range z : int16_range (to_int16 z).
Proof.
  unfold int16_range, to_int16.
  pose proof (Z.mod_pos_bound (z + 2 ^ 15) (2 ^ 16)). lia.
Qed.

Lemma to_uint32_small z : uint32_range z -> to_uint32 z = z.
Proof. unfold uint32_range, to_uint32. intros. apply Z.mod_small. lia. Qed.

Lemma to_int16_id z : int16_range z -> to_int16 z = z.
Proof.
  unfold int16_range, to_int16. intros H.
  rewrite Z.mod_small; lia.
Qed.

Lemma to_uint16_testbit z i :
  Z.testbit (to_uint16 z) i = (i <? 16) && Z.testbit z i.
Proof.
  unfold to_uint16. destruct (Z.ltb_spec i 16) as [Hlt | Hge]; simpl.
  - destruct (Z.neg_nonneg_cases i) as [Hneg | Hpos].
    + now rewrite !Z.testbit_neg_r.
    + now apply Z.mod_pow2_bits_low.
  - apply Z.mod_pow2_bits_high. lia.
Qed.

Lemma to_int16_testbit z i :
  0 <= i < 16 -> Z.testbit (to_int16 z) i = Z.testbit z i.
Proof.
  intros Hi. unfold to_int16.
  replace ((z + 2 ^ 15) mod 2 ^ 16 - 2 ^ 15)
    with (z + 2 ^ 16 * (((z + 2 ^ 15) / 2 ^ 16)) * (-1)).
  2:{ pose proof (Z.div_mod (z + 2 ^ 15) (2 ^ 16)). lia. }
  rewrite <- (Z.mod_pow2_bits_low _ 16 i) by lia.
  rewrite <- (Z.mod_pow2_bits_low z 16 i) by lia.
  f_equal.
  replace (z + 2 ^ 16 * ((z + 2 ^ 15) / 2 ^ 16) * -1)
    with (z + (- ((z + 2 ^ 15) / 2 ^ 16)) * 2 ^ 16) by lia.
  apply Z.mod_add. lia.
Qed.

Lemma lor_shiftl_add r i n :
  0 <= n -> 0 <= i < 2 ^ n -> Z.lor (Z.shiftl r n) i = r * 2 ^ n + i.
Proof.
  intros Hn Hi.
  rewrite <- Z.lxor_lor, <- Z.add_nocarry_lxor, Z.shiftl_mul_pow2; trivial.
  all: apply Z.bits_inj'; intros k Hk; rewrite Z.land_spec, Z.bits_0.
  all: destruct (Z.lt_ge_cases k n) as [Hlt | Hge].
  all: try (rewrite Z.shiftl_spec_low by lia; reflexivity).
  all: rewrite <- (Z.mod_small i (2 ^ n)) by lia.
  all: rewrite Z.mod_pow2_bits_high by lia; apply andb_false_r.
Qed.

Lemma pack32_sum r i :
  uint16_range r -> uint16_range i ->
  Z.lor (to_uint32 (Z.shiftl (to_uint32 r) 16))
        (to_uint32 (Z.shiftl (to_uint32 i) 0)) = r * 2 ^ 16 + i.
Proof.
  unfold uint16_range. intros Hr Hi.
  rewrite Z.shiftl_0_r.
  rewrite (to_uint32_small r), (to_uint32_small i) by (unfold uint32_range; lia).
  rewrite (to_uint32_small i) by (unfold uint32_range; lia).
  rewrite to_uint32_small.
  - apply lor_shiftl_add; lia.
  - unfold uint32_range. rewrite Z.shiftl_mul_pow2 by lia. lia.
Qed.

Lemma sc16_to_item32_sum num a :
  sc16_to_item32 num a = to_uint16 (real num) * 2 ^ 16 + to_uint16 (imag num).
Proof. unfold sc16_to_item32. apply pack32_sum; apply to_uint16_range. Qed.

Lemma to_int16_mod z : to_int16 (z mod 2 ^ 16) = to_int16 z.
Proof.
  unfold to_int16. f_equal.
  rewrite Z.add_mod_idemp_l by lia. reflexivity.
Qed.

Lemma to_int16_to_uint16 z : int16_range z -> to_int16 (to_uint16 z) = z.
Proof. intros H. unfold to_uint16. rewrite to_int16_mod. now apply to_int16_id. Qed.

Lemma to_uint16_to_int16 z : to_uint16 (to_int16 z) = to_uint16 z.
Proof.
  unfold to_uint16, to_int16.
  rewrite <- (Z.mod_add _ 1 (2 ^ 16)) by lia.
  replace ((z + 2 ^ 15) mod 2 ^ 16 - 2 ^ 15 + 1 * 2 ^ 16)
    with ((z + 2 ^ 15) mod 2 ^ 16 + 2 ^ 15) by lia.
  rewrite Z.add_mod_idemp_l by lia.
  replace (z + 2 ^ 15 + 2 ^ 15) with (z + 1 * 2 ^ 16) by lia.
  apply Z.mod_add. lia.
Qed.

Lemma bit_field_hi16 r i :
  uint16_range r -> uint16_range i -> bit_field (r * 2 ^ 16 + i) 16 16 = r.
Proof.
  unfold uint16_range, bit_field. intros Hr Hi.
  rewrite Z.shiftr_div_pow2 by lia.
  rewrite Z.add_comm, Z.div_add by lia.
  rewrite Z.div_small by lia. simpl. apply Z.mod_small. lia.
Qed.

Lemma bit_field_lo16 r i :
  uint16_range i -> bit_field (r * 2 ^ 16 + i) 0 16 = i.
Proof.
  unfold uint16_range, bit_field. intros Hi.
  rewrite Z.shiftr_0_r, Z.add_comm, Z.mod_add by lia.
  apply Z.mod_small. lia.
Qed.

(** ** Layout of the packed 32-bit word *)

(** C2. Packing a complex-short sample into a 32-bit word puts the
    two's-complement encoding of the real component in bits 31-16 and that of
    the imaginary component in bits 15-0; unpacking a 32-bit word reads the
    real component from bits 31-16 and the imaginary component from bits 15-0,
    each as a 16-bit two's-complement integer. *)
Theorem item32_layout (num : sc16_t) (item : item32_t) (a b : spec_float) :
  sc16_wf num -> uint32_range item ->
  (uint32_range (sc16_to_item32 num a) /\
   bit_field (sc16_to_item32 num a) 16 16 = real num mod 2 ^ 16 /\
   bit_field (sc16_to_item32 num a) 0 16 = imag num mod 2 ^ 16 /\
   sign_extend 16 (bit_field (sc16_to_item32 num a) 16 16) = real num /\
   sign_extend 16 (bit_field (sc16_to_item32 num a) 0 16) = imag num) /\
  (sc16_wf (item32_to_sc16 item b) /\
   real (item32_to_sc16 item b) = sign_extend 16 (bit_field item 16 16) /\
   imag (item32_to_sc16 item b) = sign_extend 16 (bit_field item 0 16)).
Proof.
  intros [Hre Him] Hitem. split.
  - rewrite sc16_to_item32_sum.
    pose proof (to_uint16_range (real num)) as Hr.
    pose proof (to_uint16_range (imag num)) as Hi.
    rewrite bit_field_hi16, bit_field_lo16 by assumption.
    change (sign_extend 16) with to_int16.
    rewrite !to_int16_to_uint16 by assumption.
    repeat split; try reflexivity.
    + unfold uint16_range in *. lia.
    + unfold uint16_range in *. lia.
  - unfold item32_to_sc16, sc16_wf, bit_field; simpl real; simpl imag.
    change (sign_extend 16) with to_int16.
    rewrite (to_int16_mod (Z.shiftr item 16)), (to_int16_mod (Z.shiftr item 0)).
    repeat split; apply to_int16_range.
Qed.

Lemma item32_layout_witness :
  sc16_to_item32 (Complex (-2) 3) (S754_zero false) = 0xFFFE0003 /\
  item32_to_sc16 0xFFFE0003 (S754_zero false) = Complex (-2) 3 /\
  bit_field (sc16_to_item32 (Complex (-2) 3) (S754_zero false)) 16 16
    = (-2) mod 2 ^ 16.
Proof.
  assert (Hwf : sc16_wf (Complex (-2) 3)) by (unfold sc16_wf, int16_range; simpl; lia).
  assert (Hit : uint32_range 0xFFFE0003) by (unfold uint32_range; lia).
  pose proof (item32_layout (Complex (-2) 3) 0xFFFE0003
                (S754_zero false) (S754_zero false) Hwf Hit) as H.
  split; [reflexivity | split; [reflexivity | apply H]].
Defined.

(** ** Round trip through the packed 32-bit word *)

(** C10. Unpacking the packed word of a complex-short sample gives the sample
    back, packing the unpacked sample of a 32-bit word gives the word back, and
    neither conversion looks at its scale factor. *)
Theorem sc16_item32_bijection (s : sc16_t) (w : item32_t) (a b a' b' : spec_float) :
  sc16_wf s -> uint32_range w ->
  item32_to_sc16 (sc16_to_item32 s a) b = s /\
  sc16_to_item32 (item32_to_sc16 w b) a = w /\
  sc16_to_item32 s a = sc16_to_item32 s a' /\
  item32_to_sc16 w b = item32_to_sc16 w b'.
Proof.
  intros [Hre Him] Hw. repeat split.
  - destruct s as [re im]; simpl in *.
    unfold item32_to_sc16. rewrite sc16_to_item32_sum; simpl real; simpl imag.
    pose proof (to_uint16_range re) as Hr.
    pose proof (to_uint16_range im) as Hi.
    f_equal.
    + rewrite <- to_int16_mod. fold (bit_field (to_uint16 re * 2 ^ 16 + to_uint16 im) 16 16).
      rewrite bit_field_hi16 by assumption. now apply to_int16_to_uint16.
    + rewrite Z.shiftr_0_r, <- to_int16_mod.
      rewrite Z.add_comm, Z.mod_add by lia.
      rewrite (to_int16_mod (to_uint16 im)). now apply to_int16_to_uint16.
  - rewrite sc16_to_item32_sum. unfold item32_to_sc16; simpl real; simpl imag.
    rewrite !to_uint16_to_int16, Z.shiftr_0_r.
    unfold to_uint16. rewrite Z.shiftr_div_pow2 by lia.
    unfold uint32_range in Hw.
    rewrite (Z.mod_small (w / 2 ^ 16)).
    + pose proof (Z.div_mod w (2 ^ 16)). lia.
    + split; [apply Z.div_pos; lia |].
      apply Z.div_lt_upper_bound; lia.
Qed.

Lemma sc16_item32_bijection_witness :
  item32_to_sc16 (sc16_to_item32 (Complex (-32768) 32767) (S754_zero false))
                 (S754_infinity true) = Complex (-32768) 32767 /\
  sc16_to_item32 (item32_to_sc16 0x80007FFF (S754_infinity true))
                 (S754_zero false) = 0x80007FFF.
Proof.
  assert (Hwf : sc16_wf (Complex (-32768) 32767))
    by (unfold sc16_wf, int16_range; simpl; lia).
  assert (Hit : uint32_range 0x80007FFF) by (unfold uint32_range; lia).
  pose proof (sc16_item32_bijection (Complex (-32768) 32767) 0x80007FFF
                (S754_zero false) (S754_infinity true) S754_nan S754_nan
                Hwf Hit) as (H1 & H2 & _).
  exact (conj H1 H2).
Defined.

(** ** Floating to fixed: truncation toward zero *)

Lemma truncate_toward_zero_bounds q :
  let z := truncate_toward_zero q in
  (Z.abs z * Z.pos (Qden q) <= Z.abs (Qnum q) < (Z.abs z + 1) * Z.pos (Qden q))
  /\ 0 <= z * Qnum q.
Proof.
  unfold truncate_toward_zero. destruct q as [n d]; simpl.
  assert (Hpos : forall k, 0 <= k ->
            0 <= k / Z.pos d /\
            k / Z.pos d * Z.pos d <= k < (k / Z.pos d + 1) * Z.pos d).
  { intros k Hk. pose proof (Z.div_mod k (Z.pos d) ltac:(lia)).
    pose proof (Z.mod_pos_bound k (Z.pos d) ltac:(lia)).
    pose proof (Z.div_pos k (Z.pos d) Hk ltac:(lia)). lia. }
  destruct (Z.le_gt_cases 0 n) as [Hn | Hn].
  - rewrite Z.quot_div_nonneg by lia.
    destruct (Hpos n Hn) as [Hq Hb]. rewrite !Z.abs_eq by lia.
    split; [exact Hb | nia].
  - assert (Hquot : Z.quot n (Z.pos d) = - (- n / Z.pos d)).
    { rewrite <- (Z.quot_div_nonneg (- n)) by lia.
      rewrite Z.quot_opp_l by lia. lia. }
    rewrite Hquot.
    destruct (Hpos (- n) ltac:(lia)) as [Hq Hb].
    rewrite Z.abs_opp, (Z.abs_eq (- n / Z.pos d)), (Z.abs_neq n) by lia.
    split; [exact Hb | nia].
Qed.

Lemma truncate_SF2Q_finite s m e :
  truncate_toward_zero (SF2Q (S754_finite s m e)) = cond_Zopp s (integral_part m e).
Proof.
  unfold truncate_toward_zero, SF2Q, integral_part.
  destruct e as [ | p | p]; simpl Qnum; simpl Qden.
  - now rewrite Z.quot_1_r.
  - rewrite Z.quot_1_r, Z.shiftl_mul_pow2 by lia. reflexivity.
  - rewrite Z.shiftr_div_pow2 by lia.
    rewrite Pos2Z.inj_pow.
    destruct s; unfold cond_Zopp.
    + rewrite Z.quot_opp_l by lia. f_equal. apply Z.quot_div_nonneg; lia.
    + apply Z.quot_div_nonneg; lia.
Qed.

Lemma float_to_int16_spec p z :
  float_to_int16 p = Some z <-> truncated_component p z.
Proof.
  unfold truncated_component, int16_range.
  destruct p as [s | s | | s m e]; cbn [float_to_int16 is_finite].
  - unfold truncate_toward_zero; simpl. split.
    + intros [= <-]. repeat split; lia.
    + intros (_ & -> & _). reflexivity.
  - split; [discriminate | intros (? & _); discriminate].
  - split; [discriminate | intros (? & _); discriminate].
  - rewrite truncate_SF2Q_finite.
    destruct (Z.leb_spec (- 2 ^ 15) (cond_Zopp s (integral_part m e)));
      destruct (Z.ltb_spec (cond_Zopp s (integral_part m e)) (2 ^ 15)); simpl.
    all: split; [intros [= <-] | intros (_ & -> & Hr)]; try lia.
    all: repeat split; try reflexivity; lia.
Qed.

Lemma float_to_fixed_32 (mul : spec_float -> spec_float -> spec_float) num sf w :
  match float_to_int16 (mul (real num) sf), float_to_int16 (mul (imag num) sf) with
  | Some re, Some im =>
      Some (Z.lor (to_uint32 (Z.shiftl (to_uint32 (to_uint16 re)) 16))
                  (to_uint32 (Z.shiftl (to_uint32 (to_uint16 im)) 0)))
  | _, _ => None
  end = Some w <->
  exists re im,
    truncated_component (mul (real num) sf) re /\
    truncated_component (mul (imag num) sf) im /\
    w = sc16_to_item32 (Complex re im) sf.
Proof.
  split.
  - destruct (float_to_int16 (mul (real num) sf)) as [re | ] eqn:Hre; [ | discriminate].
    destruct (float_to_int16 (mul (imag num) sf)) as [im | ] eqn:Him; [ | discriminate].
    intros [= <-]. exists re, im.
    split; [now apply float_to_int16_spec | ].
    split; [now apply float_to_int16_spec | reflexivity].
  - intros (re & im & Hre & Him & ->).
    apply float_to_int16_spec in Hre, Him. rewrite Hre, Him. reflexivity.
Qed.

(** C1. The floating-to-fixed converters compute each integer component as
    the truncation toward zero of the rounded product of the floating
    component and the scale factor: the converter yields a word exactly when
    both products are numbers whose truncations are 16-bit integers, and the
    word then packs those truncations.  With scale factor 1.0 the component
    1.9999 becomes 1 (and -1.9999 becomes -1), not 2. *)
Theorem float_to_fixed_truncates (num : complex spec_float) (scale_factor : spec_float) :
  (forall w, fc32_to_item32 num scale_factor = Some w <->
     exists re im,
       truncated_component (f32_mul (real num) scale_factor) re /\
       truncated_component (f32_mul (imag num) scale_factor) im /\
       w = sc16_to_item32 (Complex re im) scale_factor) /\
  (forall w, fc64_to_item32 num scale_factor = Some w <->
     exists re im,
       truncated_component (f64_mul (real num) scale_factor) re /\
       truncated_component (f64_mul (imag num) scale_factor) im /\
       w = sc16_to_item32 (Complex re im) scale_factor) /\
  fc32_to_item32 (Complex f32_1_9999 (SFopp f32_1_9999)) f32_1_0
    = Some (sc16_to_item32 (Complex 1 (-1)) f32_1_0) /\
  fc64_to_item32 (Complex f64_1_9999 (SFopp f64_1_9999)) f64_1_0
    = Some (sc16_to_item32 (Complex 1 (-1)) f64_1_0).
Proof.
  split; [ | split; [ | split]].
  - intros w. apply (float_to_fixed_32 f32_mul).
  - intros w. apply (float_to_fixed_32 f64_mul).
  - vm_compute. reflexivity.
  - vm_compute. reflexivity.
Qed.

Example decimal_constants :
  f32_1_9999 = S754_finite false 16776377 (-23) /\
  f64_1_9999 = S754_finite false 9006748894778255 (-52) /\
  float_to_int16 f32_1_9999 = Some 1 /\
  float_to_int16 f64_1_9999 = Some 1 /\
  float_to_int16 (SFopp f64_1_9999) = Some (-1).
Proof. repeat split; vm_compute; reflexivity. Qed.

(** ** Round trip of a packed word through complex-floating-64 *)

(** C5. With scale factor 1.0 the packed word 0x00100020 converts to the
    complex-floating-64 sample (16.0, 32.0), and that sample converts back to
    0x00100020. *)
Theorem item32_fc64_round_trip_example :
  item32_to_fc64 0x00100020 f64_1_0 = Complex f64_16_0 f64_32_0 /\
  fc64_to_item32 (Complex f64_16_0 f64_32_0) f64_1_0 = Some 0x00100020 /\
  Qeq (SF2Q f64_1_0) (Qmake 1 1) /\
  Qeq (SF2Q f64_16_0) (Qmake 16 1) /\ Qeq (SF2Q f64_32_0) (Qmake 32 1).
Proof. repeat split; vm_compute; reflexivity. Qed.

(** ** Rounding and validity of [spec_float] operations *)

Section Rounding.
Variables prec emax : Z.
Hypothesis prec_pos : 0 < prec.

Local Abbreviation fexp := (fexp prec emax).
Local Abbreviation emin := (emin prec emax).

Lemma digits2_pos_size m : digits2_pos m = Pos.size m.
Proof. induction m; simpl; congruence. Qed.

Lemma Zdigits2_log2 m : 0 < m -> Zdigits2 m = Z.log2 m + 1.
Proof.
  destruct m as [ | p | p]; try lia. intros _. simpl.
  rewrite digits2_pos_size. destruct p; simpl; lia.
Qed.

Lemma Zdigits2_nonneg m : 0 <= Zdigits2 m.
Proof. destruct m; simpl; lia. Qed.

Lemma Zdigits2_shiftr m n :
  0 <= m -> 0 <= n -> Zdigits2 (Z.shiftr m n) = Z.max 0 (Zdigits2 m - n).
Proof.
  intros Hm Hn.
  destruct (Z.eq_dec m 0) as [-> | Hm0].
  { rewrite Z.shiftr_0_l. simpl. lia. }
  destruct (Z.eq_dec (Z.shiftr m n) 0) as [Hz | Hnz].
  - rewrite Hz. simpl.
    apply Z.shiftr_eq_0_iff in Hz. destruct Hz as [? | [_ Hlog]]; [lia | ].
    rewrite Zdigits2_log2 by lia. lia.
  - assert (Hpos : 0 < Z.shiftr m n).
    { pose proof (proj2 (Z.shiftr_nonneg m n) Hm). lia. }
    rewrite (Zdigits2_log2 _ Hpos), Zdigits2_log2 by lia.
    rewrite Z.log2_shiftr by lia.
    assert (n <= Z.log2 m).
    { destruct (Z.le_gt_cases n (Z.log2 m)); trivial.
      exfalso. apply Hnz. apply Z.shiftr_eq_0; lia. }
    lia.
Qed.

Lemma Zdigits2_mono a b : 0 <= a <= b -> Zdigits2 a <= Zdigits2 b.
Proof.
  intros [Ha Hab].
  destruct (Z.eq_dec a 0) as [-> | Ha0]; [apply Zdigits2_nonneg | ].
  rewrite !Zdigits2_log2 by lia.
  pose proof (Z.log2_le_mono a b Hab). lia.
Qed.

Lemma shr_1_m mrs : 0 <= shr_m mrs -> shr_m (shr_1 mrs) = Z.shiftr (shr_m mrs) 1.
Proof.
  rewrite <- Z.div2_spec.
  destruct mrs as [m r s]; simpl. destruct m as [ | [p | p | ] | p]; simpl; trivial; lia.
Qed.

Lemma iter_shr_1_m p : forall mrs,
  0 <= shr_m mrs ->
  shr_m (SpecFloat.iter_pos shr_1 p mrs) = Z.shiftr (shr_m mrs) (Z.pos p).
Proof.
  induction p as [p IH | p IH | ]; intros mrs Hm; simpl SpecFloat.iter_pos.
  - assert (H1 : 0 <= shr_m (shr_1 mrs)).
    { rewrite shr_1_m by trivial. now apply Z.shiftr_nonneg. }
    assert (H2 : 0 <= shr_m (SpecFloat.iter_pos shr_1 p (shr_1 mrs))).
    { rewrite IH by trivial. now apply Z.shiftr_nonneg. }
    rewrite IH, IH, shr_1_m, !Z.shiftr_shiftr by (trivial; lia).
    f_equal. lia.
  - assert (H2 : 0 <= shr_m (SpecFloat.iter_pos shr_1 p mrs)).
    { rewrite IH by trivial. now apply Z.shiftr_nonneg. }
    rewrite IH, IH, !Z.shiftr_shiftr by (trivial; lia).
    f_equal. lia.
  - now apply shr_1_m.
Qed.

Lemma shr_record_of_loc_m m l : shr_m (shr_record_of_loc m l) = m.
Proof. destruct l as [ | [ | | ]]; reflexivity. Qed.

(** One right-shift step brings a mantissa that has at least the digits its
    exponent asks for into canonical position. *)
Lemma shr_fexp_canonical m e l :
  0 <= m -> e <= fexp (Zdigits2 m + e) ->
  0 <= shr_m (fst (shr_fexp prec emax m e l)) /\
  fexp (Zdigits2 (shr_m (fst (shr_fexp prec emax m e l)))
        + snd (shr_fexp prec emax m e l)) = snd (shr_fexp prec emax m e l).
Proof.
  intros Hm He. unfold shr_fexp, shr.
  destruct (fexp (Zdigits2 m + e) - e) as [ | p | p] eqn:Hn; simpl fst; simpl snd.
  - rewrite shr_record_of_loc_m. split; [trivial | lia].
  - rewrite iter_shr_1_m by (rewrite shr_record_of_loc_m; trivial).
    rewrite shr_record_of_loc_m.
    split; [now apply Z.shiftr_nonneg | ].
    rewrite Zdigits2_shiftr by lia.
    pose proof (Zdigits2_nonneg m).
    unfold SpecFloat.fexp in *. lia.
  - lia.
Qed.

Lemma round_nearest_even_cases m l :
  round_nearest_even m l = m \/ round_nearest_even m l = m + 1.
Proof.
  destruct l as [ | [ | | ]]; simpl; auto. destruct (Z.even m); auto.
Qed.

Lemma fexp_mono a b : a <= b -> fexp a <= fexp b.
Proof. unfold SpecFloat.fexp. lia. Qed.

Lemma binary_round_aux_valid s m e l :
  0 <= m -> e <= fexp (Zdigits2 m + e) ->
  valid_binary prec emax (binary_round_aux prec emax s m e l) = true.
Proof.
  intros Hm He. unfold binary_round_aux.
  destruct (shr_fexp_canonical m e l Hm He) as [Hm1 Hc1].
  destruct (shr_fexp prec emax m e l) as [mrs1 e1]; simpl fst in *; simpl snd in *.
  set (m1 := round_nearest_even (shr_m mrs1) (loc_of_shr_record mrs1)).
  assert (Hm1' : shr_m mrs1 <= m1 <= shr_m mrs1 + 1).
  { destruct (round_nearest_even_cases (shr_m mrs1) (loc_of_shr_record mrs1));
      subst m1; lia. }
  assert (He1 : e1 <= fexp (Zdigits2 m1 + e1)).
  { rewrite <- Hc1 at 1. apply fexp_mono.
    pose proof (Zdigits2_mono (shr_m mrs1) m1). lia. }
  destruct (shr_fexp_canonical m1 e1 loc_Exact ltac:(lia) He1) as [Hm2 Hc2].
  destruct (shr_fexp prec emax m1 e1 loc_Exact) as [mrs2 e2];
    simpl fst in *; simpl snd in *.
  destruct (shr_m mrs2) as [ | m2 | m2]; trivial.
  destruct (Z.leb_spec e2 (emax - prec)); trivial.
  simpl. unfold bounded, canonical_mantissa.
  simpl in Hc2. rewrite Hc2, Z.eqb_refl. simpl. now apply Z.leb_le.
Qed.

Lemma Pos_iter_xO m k : Z.pos (Pos.iter xO m k) = Z.pos m * 2 ^ Z.pos k.
Proof.
  revert m. induction k as [ | k IH] using Pos.peano_ind; intros m.
  - simpl. lia.
  - rewrite Pos.iter_succ, Pos2Z.inj_xO, IH, Pos2Z.inj_succ, Z.pow_succ_r; lia.
Qed.

Lemma digits2_pos_iter_xO m k :
  Z.pos (digits2_pos (Pos.iter xO m k)) = Z.pos (digits2_pos m) + Z.pos k.
Proof.
  induction k as [ | k IH] using Pos.peano_ind.
  - simpl. lia.
  - rewrite Pos.iter_succ. simpl digits2_pos. lia.
Qed.

Lemma trailing_zeros_iter_xO m k :
  trailing_zeros (Pos.iter xO m k) = trailing_zeros m + Z.pos k.
Proof.
  induction k as [ | k IH] using Pos.peano_ind.
  - simpl. lia.
  - rewrite Pos.iter_succ. simpl trailing_zeros. lia.
Qed.

Lemma trailing_zeros_nonneg m : 0 <= trailing_zeros m.
Proof. induction m; simpl; lia. Qed.

Lemma shl_align_digits m e :
  let '(mz, ez) := shl_align m e (fexp (Z.pos (digits2_pos m) + e)) in
  ez <= fexp (Zdigits2 (Z.pos mz) + ez).
Proof.
  unfold shl_align.
  destruct (fexp (Z.pos (digits2_pos m) + e) - e) as [ | p | p] eqn:Hn.
  - simpl. lia.
  - simpl. lia.
  - simpl. rewrite digits2_pos_iter_xO.
    replace (Z.pos (digits2_pos m) + Z.pos p + fexp (Z.pos (digits2_pos m) + e))
      with (Z.pos (digits2_pos m) + e) by lia.
    lia.
Qed.

Lemma binary_round_valid s m e :
  valid_binary prec emax (binary_round prec emax s m e) = true.
Proof.
  unfold binary_round.
  pose proof (shl_align_digits m e) as H.
  destruct (shl_align m e (fexp (Z.pos (digits2_pos m) + e))) as [mz ez].
  apply binary_round_aux_valid; [lia | exact H].
Qed.

(** A canonical mantissa is left unchanged by rounding. *)
Lemma binary_round_aux_canonical s (m : positive) e :
  bounded prec emax m e = true ->
  binary_round_aux prec emax s (Z.pos m) e loc_Exact = S754_finite s m e.
Proof.
  unfold bounded, canonical_mantissa. intros H.
  apply andb_true_iff in H. destruct H as [Hc Hb].
  apply Z.eqb_eq in Hc.
  unfold binary_round_aux, shr_fexp. simpl Zdigits2.
  rewrite Hc, Z.sub_diag.
  cbv beta iota delta [shr shr_record_of_loc round_nearest_even shr_m
                       loc_of_shr_record Zdigits2].
  rewrite Hc, Z.sub_diag. cbv beta iota. now rewrite Hb.
Qed.
End Rounding.

(** ** Complex-floating-64 outputs carry single precision *)

Lemma bounded_float_inv m e :
  bounded 24 128 m e = true ->
  Z.pos (digits2_pos m) <= 24 /\ -149 <= e <= 104.
Proof.
  unfold bounded, canonical_mantissa, fexp, emin. intros H.
  apply andb_true_iff in H. destruct H as [Hc Hb].
  apply Z.eqb_eq in Hc. apply Z.leb_le in Hb. lia.
Qed.

Lemma float_to_double_finite s m e :
  bounded 24 128 m e = true ->
  exists k : positive,
    Z.pos k = 53 - Z.pos (digits2_pos m) /\
    float_to_double (S754_finite s m e)
      = S754_finite s (Pos.iter xO m k) (e - Z.pos k).
Proof.
  intros Hb. apply bounded_float_inv in Hb. destruct Hb as [Hd He].
  destruct (53 - Z.pos (digits2_pos m)) as [ | k | k] eqn:Hk; try lia.
  exists k. split; [reflexivity | ].
  unfold float_to_double, binary_round, shl_align.
  replace (fexp 53 1024 (Z.pos (digits2_pos m) + e) - e) with (Z.neg k)
    by (unfold fexp, emin; lia).
  replace (fexp 53 1024 (Z.pos (digits2_pos m) + e)) with (e - Z.pos k)
    by (unfold fexp, emin; lia).
  apply binary_round_aux_canonical.
  unfold bounded, canonical_mantissa.
  rewrite digits2_pos_iter_xO.
  apply andb_true_iff. split.
  - apply Z.eqb_eq. unfold fexp, emin. lia.
  - apply Z.leb_le. lia.
Qed.

Lemma double_to_float_valid p : valid_binary 24 128 (double_to_float p) = true.
Proof.
  destruct p as [s | s | | s m e]; trivial.
  apply binary_round_valid. lia.
Qed.

Lemma through_single_precision_intro p :
  through_single_precision p (float_to_double (double_to_float p)).
Proof.
  unfold through_single_precision.
  pose proof (double_to_float_valid p) as Hv.
  split; [reflexivity | split; [exact Hv | ]].
  destruct (double_to_float p) as [s | s | | s m e]; simpl in Hv.
  1-3: simpl; split; [reflexivity | lia].
  destruct (float_to_double_finite s m e Hv) as (k & Hk & ->).
  apply bounded_float_inv in Hv.
  unfold same_number, significand_width.
  rewrite Pos_iter_xO, digits2_pos_iter_xO, trailing_zeros_iter_xO.
  pose proof (trailing_zeros_nonneg m).
  repeat split; try lia.
  f_equal. f_equal. lia.
Qed.

(** C9. Every component of a complex-floating-64 sample produced from a
    packed word is the double-precision product of the sign-converted field
    and the scale factor, rounded to a valid binary32 number and widened
    without change of value; it needs at most 24 significand bits. *)
Theorem fc64_output_single_precision (item : Z) (scale_factor : spec_float) :
  through_single_precision
    (f64_mul (int_to_double (to_int16 (Z.shiftr item 16))) scale_factor)
    (real (item32_to_fc64 item scale_factor)) /\
  through_single_precision
    (f64_mul (int_to_double (to_int16 (Z.shiftr item 0))) scale_factor)
    (imag (item32_to_fc64 item scale_factor)) /\
  through_single_precision
    (f64_mul (int_to_double (to_int16 (Z.shiftr item 8))) scale_factor)
    (real (item16_to_fc64 item scale_factor)) /\
  through_single_precision
    (f64_mul (int_to_double (to_int16 (Z.shiftr item 0))) scale_factor)
    (imag (item16_to_fc64 item scale_factor)).
Proof.
  unfold item32_to_fc64, item16_to_fc64. cbn [real imag].
  split; [ | split; [ | split]]; apply through_single_precision_intro.
Qed.

(** The rounding is visible: 3 * 0.1 needs 51 significand bits in binary64,
    and the converter returns the binary32 neighbour instead. *)
Example fc64_output_drops_double_precision :
  f64_mul (int_to_double 3) f64_0_1 = S754_finite false 5404319552844596 (-54) /\
  double_to_float (f64_mul (int_to_double 3) f64_0_1)
    = S754_finite false 10066330 (-25) /\
  real (item32_to_fc64 0x00030000 f64_0_1)
    = S754_finite false 5404319767592960 (-54) /\
  significand_width (f64_mul (int_to_double 3) f64_0_1) = 51 /\
  significand_width (real (item32_to_fc64 0x00030000 f64_0_1)) = 23.
Proof. repeat split; vm_compute; reflexivity. Qed.

(** ** The packed 16-bit word *)

(** What [sc16_to_item16] computes: the low field holds the low byte of the
    imaginary component, while the high field holds the low byte of the real
    component combined by bitwise or with the high byte of the (16-bit)
    imaginary component. *)
Lemma sc16_to_item16_fields num a :
  bit_field (sc16_to_item16 num a) 0 8 = imag num mod 2 ^ 8 /\
  bit_field (sc16_to_item16 num a) 8 8
    = Z.lor (real num mod 2 ^ 8) (bit_field (to_uint16 (imag num)) 8 8).
Proof.
  unfold sc16_to_item16, bit_field. rewrite !Z.shiftr_0_r, Z.shiftl_0_r.
  split; apply Z.bits_inj'; intros k Hk.
  - destruct (Z.lt_ge_cases k 8) as [Hlt | Hge].
    + rewrite !Z.mod_pow2_bits_low by lia.
      rewrite to_uint16_testbit, Z.lor_spec, Z.shiftl_spec_low by lia.
      rewrite to_uint16_testbit.
      replace (k <? 16) with true by (symmetry; apply Z.ltb_lt; lia).
      reflexivity.
    + rewrite !Z.mod_pow2_bits_high by lia. reflexivity.
  - destruct (Z.lt_ge_cases k 8) as [Hlt | Hge].
    + rewrite Z.mod_pow2_bits_low by lia.
      rewrite Z.shiftr_spec, to_uint16_testbit, !Z.lor_spec by lia.
      rewrite Z.shiftl_spec by lia.
      rewrite !Z.mod_pow2_bits_low by lia.
      rewrite Z.shiftr_spec by lia.
      rewrite !to_uint16_testbit.
      replace (k + 8 - 8) with k by lia.
      replace (k + 8 <? 16) with true by (symmetry; apply Z.ltb_lt; lia).
      replace (k <? 16) with true by (symmetry; apply Z.ltb_lt; lia).
      reflexivity.
    + rewrite Z.mod_pow2_bits_high by lia.
      rewrite Z.lor_spec, !Z.mod_pow2_bits_high by lia. reflexivity.
Qed.

(** C3 (what the code does at a sample whose components both fit 8 bits).
    For the sample (0, -1) the packed 16-bit word is 0xFFFF: bits 15-8 hold
    0xFF and not the real component truncated to 8 bits, which is 0, because
    the sign bits of the imaginary component are or-ed into the real field;
    the sample (0, 7), with the same real component, has 0 there.  The
    floating kernel [fc32_to_item16] does the same for (0.0, -1.0). *)
Theorem sc16_to_item16_real_field_clobbered :
  sc16_to_item16 (Complex 0 (-1)) f32_1_0 = 0xFFFF /\
  bit_field (sc16_to_item16 (Complex 0 (-1)) f32_1_0) 8 8 = 0xFF /\
  bit_field (sc16_to_item16 (Complex 0 (-1)) f32_1_0) 8 8
    <> real (Complex 0 (-1)) mod 2 ^ 8 /\
  bit_field (sc16_to_item16 (Complex 0 7) f32_1_0) 8 8
    = real (Complex 0 7) mod 2 ^ 8 /\
  fc32_to_item16 (Complex (S754_zero false) (SFopp f32_1_0)) f32_1_0
    = Some 0xFFFF.
Proof. repeat split; vm_compute; (reflexivity || discriminate). Qed.

(** C4 (what the code does on 16-bit words).  The 16-bit kernels take the
    real component from bits 15-8 without sign extension and the imaginary
    component from the whole word as a 16-bit integer: the word 0x00FF gives
    (0, 255) and the word 0xFF00 gives (255, -256), where reading each byte
    as an 8-bit two's-complement value would give (0, -1) and (-1, 0).  The
    32-bit kernels do sign-extend their 16-bit fields. *)
Theorem item16_unpack_not_sign_extended :
  item16_to_sc16 0x00FF f32_1_0 = Complex 0 255 /\
  item16_to_sc16 0xFF00 f32_1_0 = Complex 255 (-256) /\
  imag (item16_to_sc16 0x00FF f32_1_0) <> sign_extend 8 (bit_field 0x00FF 0 8) /\
  real (item16_to_sc16 0xFF00 f32_1_0) <> sign_extend 8 (bit_field 0xFF00 8 8) /\
  imag (item16_to_sc16 0xFF00 f32_1_0) <> sign_extend 8 (bit_field 0xFF00 0 8) /\
  item16_to_fc32 0x00FF f32_1_0
    = Complex (S754_zero false) (int_to_float 255) /\
  item16_to_fc32 0xFF00 f32_1_0
    = Complex (int_to_float 255) (int_to_float (-256)) /\
  item16_to_fc64 0xFF00 f64_1_0
    = Complex (int_to_double 255) (int_to_double (-256)) /\
  item32_to_fc32 0xFFFF0000 f32_1_0
    = Complex (int_to_float (sign_extend 16 (bit_field 0xFFFF0000 16 16)))
              (S754_zero false) /\
  sign_extend 16 (bit_field 0xFFFF0000 16 16) = -1.
Proof. repeat split; vm_compute; (reflexivity || discriminate). Qed.

Lemma item32_to_fc32_sign_extends item sf :
  item32_to_fc32 item sf =
  Complex (f32_mul (int_to_float (sign_extend 16 (bit_field item 16 16))) sf)
          (f32_mul (int_to_float (sign_extend 16 (bit_field item 0 16))) sf).
Proof.
  unfold item32_to_fc32, bit_field. change (sign_extend 16) with to_int16.
  rewrite (to_int16_mod (Z.shiftr item 16)), (to_int16_mod (Z.shiftr item 0)).
  reflexivity.
Qed.

(** ** Reading back a stored property *)

Section PropertyTree.
Context {value tag world : Type} `{!EqDecision tag}.
Variable type_of : value -> tag.

Lemma run_subscribers_state ss (v : value) (w : world) :
  exists w' e, property_tree.run_subscribers ss v w = (w', e).
Proof. destruct (property_tree.run_subscribers ss v w) as [w' e]. eauto. Qed.

(** C6. On a node without publisher and without coercion, a value of the
    node's type that has been set is the value read: after [set p v], whether
    or not a subscriber reported a failure, [get p] returns exactly [v]. *)
Theorem set_then_get (t : property_tree.tree) (w : world) (p : fs_path)
    (n : property_tree.node) (v : value) :
  t !! p = Some n ->
  property_tree.publisher n = None ->
  property_tree.coercions n = [] ->
  type_of v = property_tree.node_type n ->
  property_tree.get p (fst (property_tree.set type_of p v (t, w))) = Ok v.
Proof.
  intros Hp Hpub Hco Hty.
  unfold property_tree.set. simpl fst; simpl snd.
  rewrite Hp, decide_True by exact Hty.
  rewrite Hco. simpl property_tree.run_coercions.
  destruct (run_subscribers_state (property_tree.subscribers n) v w)
    as (w' & e & ->).
  unfold property_tree.get, property_tree.tree in *. cbn [fst snd].
  rewrite lookup_insert_eq. cbn [property_tree.publisher property_tree.current].
  rewrite Hpub. reflexivity.
Qed.
End PropertyTree.

Lemma set_then_get_witness :
  let n := property_tree.Node tt None []
             [fun (v : Z) (w : list Z) => Some (v :: w);
              fun (v : Z) (w : list Z) => None] None in
  let t : gmap fs_path _ := {[ ["mboards"; "0"; "tick_rate"]%string := n ]} in
  property_tree.get ["mboards"; "0"; "tick_rate"]%string
    (fst (property_tree.set (fun _ => tt) ["mboards"; "0"; "tick_rate"]%string
            64 (t, []))) = Ok 64.
Proof.
  intros n t.
  apply (set_then_get (fun _ : Z => tt) t [] ["mboards"; "0"; "tick_rate"]%string n 64).
  - subst t. unfold property_tree.tree. apply lookup_singleton_eq.
  - reflexivity.
  - reflexivity.
  - reflexivity.
Defined.

(** ** Order of node creation during bring-up *)

Lemma ranks_of_app l1 l2 : ranks_of (l1 ++ l2) = ranks_of l1 ++ ranks_of l2.
Proof. unfold ranks_of, created_paths. now rewrite !omap_app. Qed.

Lemma sorted_between_app a b c d l1 l2 :
  (a <= c)%nat -> (b <= c)%nat -> (b <= d)%nat ->
  sorted_between a b l1 -> sorted_between c d l2 ->
  sorted_between a d (l1 ++ l2).
Proof.
  intros Hac Hbc Hbd [Hs1 Hf1] [Hs2 Hf2]. split.
  - induction Hs1 as [ | x l1 Hs1 IH Hx]; simpl; [exact Hs2 | ].
    apply Forall_cons in Hf1. destruct Hf1 as [Hxb Hf1].
    constructor; [now apply IH | ].
    apply Forall_app. split; [exact Hx | ].
    eapply Forall_impl; [exact Hf2 | ]. simpl. intros y Hy. lia.
  - apply Forall_app. split.
    + eapply Forall_impl; [exact Hf1 | ]. simpl. intros y Hy. lia.
    + eapply Forall_impl; [exact Hf2 | ]. simpl. intros y Hy. lia.
Qed.

Lemma sorted_between_const g l : Forall (eq g) l -> sorted_between g g l.
Proof.
  intros H. split.
  - induction H as [ | x l <- Hl IH]; constructor; [exact IH | ].
    eapply Forall_impl; [exact Hl | ]. simpl. intros y <-. lia.
  - eapply Forall_impl; [exact H | ]. simpl. intros y <-. lia.
Qed.

Lemma ranks_of_flat_map {X : Type} (f : X -> list tree_op) g (l : list X) :
  (forall x, Forall (eq g) (ranks_of (f x))) ->
  Forall (eq g) (ranks_of (flat_map f l)).
Proof.
  intros Hf. induction l as [ | x l IH]; simpl.
  - constructor.
  - rewrite ranks_of_app. apply Forall_app. split; [apply Hf | exact IH].
Qed.

Lemma ranks_of_rx_dsp_ops dspno : Forall (eq 4%nat) (ranks_of (rx_dsp_ops dspno)).
Proof.
  unfold rx_dsp_ops. rewrite ranks_of_app. apply Forall_app. split.
  - repeat constructor.
  - destruct (decide (dspno = 0%nat)); constructor.
Qed.

Lemma ranks_of_tx_dsp_ops dspno : Forall (eq 4%nat) (ranks_of (tx_dsp_ops dspno)).
Proof. repeat constructor. Qed.

Lemma ranks_of_subtree_ops db dir name rel :
  Forall (eq 6%nat)
    (ranks_of (subtree_ops (mb_path ++ ["dboards"%string; db; dir; name]) rel)).
Proof.
  induction rel as [ | p rel IH]; simpl; [constructor | ].
  constructor; [reflexivity | exact IH].
Qed.

Lemma ranks_of_dboard_ops env db : Forall (eq 6%nat) (ranks_of (dboard_ops env db)).
Proof.
  unfold dboard_ops. rewrite !ranks_of_app.
  repeat (apply Forall_app; split).
  - repeat constructor.
  - apply ranks_of_flat_map. intros name. apply ranks_of_subtree_ops.
  - apply ranks_of_flat_map. intros name. apply ranks_of_subtree_ops.
Qed.

Ltac classify :=
  first [ left; reflexivity | right; eexists; reflexivity ].

Ltac classify_all :=
  repeat first [ apply Forall_nil_2 | apply Forall_cons_2; [classify | ] ].

Lemma created_paths_app l1 l2 :
  created_paths (l1 ++ l2) = created_paths l1 ++ created_paths l2.
Proof. unfold created_paths. apply omap_app. Qed.

Lemma classified_flat_map {X : Type} (f : X -> list tree_op) (l : list X) :
  (forall x, Forall classified (created_paths (f x))) ->
  Forall classified (created_paths (flat_map f l)).
Proof.
  intros Hf. induction l as [ | x l IH]; simpl.
  - constructor.
  - rewrite created_paths_app. apply Forall_app. split; [apply Hf | exact IH].
Qed.

Lemma classified_codec_ops db : Forall classified (created_paths (codec_ops db)).
Proof. classify_all. Qed.

Lemma classified_rx_dsp_ops dspno :
  Forall classified (created_paths (rx_dsp_ops dspno)).
Proof.
  unfold rx_dsp_ops. rewrite created_paths_app. apply Forall_app. split.
  - classify_all.
  - destruct (decide (dspno = 0%nat)); constructor.
Qed.

Lemma classified_tx_dsp_ops dspno :
  Forall classified (created_paths (tx_dsp_ops dspno)).
Proof. classify_all. Qed.

Lemma classified_subtree_ops db dir name rel :
  Forall classified
    (created_paths
       (subtree_ops (mb_path ++ ["dboards"%string; db; dir; name]) rel)).
Proof.
  induction rel as [ | p rel IH]; simpl; [constructor | ].
  constructor; [classify | exact IH].
Qed.

Lemma classified_dboard_ops env db :
  Forall classified (created_paths (dboard_ops env db)).
Proof.
  unfold dboard_ops. rewrite !created_paths_app.
  repeat (apply Forall_app; split).
  - classify_all.
  - apply classified_flat_map. intros name. apply classified_subtree_ops.
  - apply classified_flat_map. intros name. apply classified_subtree_ops.
Qed.

Ltac find_rank :=
  first [ assumption
        | apply list_elem_of_here
        | apply list_elem_of_further; find_rank
        | apply elem_of_app; right; find_rank ].

Lemma creation_ranks_eq env :
  creation_ranks env =
    [0; 0; 0; 0; 1]%nat
    ++ replicate 12 2%nat
    ++ [3; 3; 4]%nat
    ++ ranks_of (flat_map rx_dsp_ops (seq 0 (get_num_ddcs env)))
    ++ [4]%nat
    ++ ranks_of (flat_map tx_dsp_ops (seq 0 (get_num_ducs env)))
    ++ replicate 5 5%nat
    ++ ranks_of (flat_map (dboard_ops env) dbc_keys).
Proof.
  unfold creation_ranks, usrp1_impl_tree_ops.
  rewrite !ranks_of_app. reflexivity.
Qed.

Lemma creation_ranks_sorted env : StronglySorted le (creation_ranks env).
Proof.
  rewrite creation_ranks_eq.
  apply (sorted_between_app 0 1 2 6); try lia.
  { split; repeat constructor; lia. }
  apply (sorted_between_app 2 2 3 6); try lia.
  { apply (sorted_between_const 2). repeat constructor. }
  apply (sorted_between_app 3 4 4 6); try lia.
  { split; repeat constructor; lia. }
  apply (sorted_between_app 4 4 4 6); try lia.
  { apply (sorted_between_const 4), ranks_of_flat_map, ranks_of_rx_dsp_ops. }
  apply (sorted_between_app 4 4 4 6); try lia.
  { apply (sorted_between_const 4). repeat constructor. }
  apply (sorted_between_app 4 4 5 6); try lia.
  { apply (sorted_between_const 4), ranks_of_flat_map, ranks_of_tx_dsp_ops. }
  apply (sorted_between_app 5 5 6 6); try lia.
  { apply (sorted_between_const 5). repeat constructor. }
  apply (sorted_between_const 6), ranks_of_flat_map, ranks_of_dboard_ops.
Qed.

(** C8. The constructor creates the property-tree nodes group after group:
    the ranks of the groups of the created nodes, taken in program order,
    never decrease from capability/identity nodes through clock, codec,
    frontend, DSP-stage and time nodes to daughterboard nodes.  Every group
    occurs, and the only created node outside the seven groups is the
    placeholder [sensors]. *)
Theorem bringup_creation_order (env : usrp1_env) :
  StronglySorted le (creation_ranks env) /\
  (forall k, StronglySorted le (ranks_of (take k (usrp1_impl_tree_ops env)))) /\
  Forall (fun g => group_rank g ∈ creation_ranks env)
    [Capability; Clock; Codec; Frontend; DspStage; Time; Daughterboard] /\
  Forall classified (created_paths (usrp1_impl_tree_ops env)).
Proof.
  assert (Hsorted : StronglySorted le (creation_ranks env)).
  { apply creation_ranks_sorted. }
  split; [exact Hsorted | split; [ | split]].
  - intros k. unfold creation_ranks in Hsorted.
    rewrite <- (take_drop k (usrp1_impl_tree_ops env)), ranks_of_app in Hsorted.
    now apply StronglySorted_app_1_l in Hsorted.
  - rewrite creation_ranks_eq.
    assert (Hdb : 6%nat ∈ ranks_of (flat_map (dboard_ops env) dbc_keys)).
    { unfold dbc_keys, flat_map, dboard_ops. rewrite !ranks_of_app.
      apply elem_of_app. left. apply elem_of_app. left. apply list_elem_of_here. }
    repeat constructor; simpl group_rank; simpl replicate; find_rank.
  - unfold usrp1_impl_tree_ops. rewrite !created_paths_app.
    repeat (apply Forall_app; split).
    + classify_all.
    + apply classified_flat_map, classified_codec_ops.
    + classify_all.
    + apply classified_flat_map, classified_rx_dsp_ops.
    + classify_all.
    + apply classified_flat_map, classified_tx_dsp_ops.
    + classify_all.
    + apply classified_flat_map, classified_dboard_ops.
Qed.

(** ** Exact conversions at scale factor one *)

Lemma iter_pos_eq {A : Type} (f : A -> A) p : forall x,
  SpecFloat.iter_pos f p x = Pos.iter f x p.
Proof.
  induction p as [p IH | p IH | ]; intros x; simpl.
  - rewrite !IH, !Pos.iter_swap. reflexivity.
  - rewrite !IH. reflexivity.
  - reflexivity.
Qed.

(** Shifting out zero bits leaves no rounding information behind. *)
Lemma iter_shr_1_exact M k :
  SpecFloat.iter_pos shr_1 k (Build_shr_record (Z.pos (Pos.iter xO M k)) false false)
  = Build_shr_record (Z.pos M) false false.
Proof.
  rewrite iter_pos_eq.
  induction k as [ | k IH] using Pos.peano_ind.
  - reflexivity.
  - rewrite Pos.iter_succ_r, Pos.iter_succ. simpl shr_1. exact IH.
Qed.

Section ExactRounding.
Variables prec emax : Z.

(** A canonical mantissa followed by [k] zero bits rounds to itself. *)
Lemma binary_round_aux_shifted s M E k :
  bounded prec emax M E = true ->
  binary_round_aux prec emax s (Z.pos (Pos.iter xO M k)) (E - Z.pos k) loc_Exact
  = S754_finite s M E.
Proof.
  intros Hb. pose proof Hb as Hb'.
  unfold bounded, canonical_mantissa in Hb'.
  apply andb_true_iff in Hb'. destruct Hb' as [Hc Hle].
  apply Z.eqb_eq in Hc.
  unfold binary_round_aux, shr_fexp. simpl Zdigits2.
  rewrite digits2_pos_iter_xO.
  replace (Z.pos (digits2_pos M) + Z.pos k + (E - Z.pos k))
    with (Z.pos (digits2_pos M) + E) by lia.
  rewrite Hc.
  replace (E - (E - Z.pos k)) with (Z.pos k) by lia.
  cbv beta iota delta [shr shr_record_of_loc].
  rewrite iter_shr_1_exact.
  cbv beta iota delta [round_nearest_even shr_m loc_of_shr_record Zdigits2].
  replace (E - Z.pos k + Z.pos k) with E by lia.
  rewrite Hc, Z.sub_diag.
  cbv beta iota delta [shr shr_record_of_loc shr_m]. now rewrite Hle.
Qed.

(** A short mantissa is normalised by a left shift. *)
Lemma binary_round_shl s m e k :
  bounded prec emax (Pos.iter xO m k) (e - Z.pos k) = true ->
  binary_round prec emax s m e = S754_finite s (Pos.iter xO m k) (e - Z.pos k).
Proof.
  intros Hb. pose proof Hb as Hb'.
  unfold bounded, canonical_mantissa in Hb'.
  apply andb_true_iff in Hb'. destruct Hb' as [Hc _].
  apply Z.eqb_eq in Hc. rewrite digits2_pos_iter_xO in Hc.
  replace (Z.pos (digits2_pos m) + Z.pos k + (e - Z.pos k))
    with (Z.pos (digits2_pos m) + e) in Hc by lia.
  unfold binary_round, shl_align. rewrite Hc.
  replace (e - Z.pos k - e) with (Z.neg k) by lia.
  now apply binary_round_aux_canonical.
Qed.
End ExactRounding.

Lemma Pos_mul_pow2 M k : (M * Pos.iter xO 1 k = Pos.iter xO M k)%positive.
Proof.
  apply Pos2Z.inj. rewrite Pos2Z.inj_mul, !Pos_iter_xO. lia.
Qed.

(** Multiplying a valid number by 1.0 returns it. *)
Lemma f32_mul_one s M E :
  bounded 24 128 M E = true ->
  f32_mul (S754_finite s M E) f32_1_0 = S754_finite s M E.
Proof.
  intros Hb. change f32_1_0 with (S754_finite false (Pos.iter xO 1%positive 23) (-23)).
  unfold f32_mul, SFmul. rewrite Pos_mul_pow2, xorb_false_r.
  now apply (binary_round_aux_shifted 24 128 s M E 23).
Qed.

Lemma f64_mul_one s M E :
  bounded 53 1024 M E = true ->
  f64_mul (S754_finite s M E) f64_1_0 = S754_finite s M E.
Proof.
  intros Hb. change f64_1_0 with (S754_finite false (Pos.iter xO 1%positive 52) (-52)).
  unfold f64_mul, SFmul. rewrite Pos_mul_pow2, xorb_false_r.
  now apply (binary_round_aux_shifted 53 1024 s M E 52).
Qed.

Lemma digits2_pos_int16 m : Z.pos m <= 2 ^ 15 -> Z.pos (digits2_pos m) <= 16.
Proof.
  intros Hm. change (Z.pos (digits2_pos m)) with (Zdigits2 (Z.pos m)).
  rewrite Zdigits2_log2 by lia.
  assert (Z.log2 (Z.pos m) < 16); [ | lia].
  apply Z.log2_lt_pow2; lia.
Qed.

Section IntToFloat.
Variables prec emax : Z.
Hypothesis prec_big : 16 < prec.
Hypothesis emax_big : prec < emax.

(** A nonzero 16-bit integer converts to its magnitude shifted left to a
    full significand: the conversion is exact. *)
Lemma binary_normalize_int16 z :
  z <> 0 -> - 2 ^ 15 <= z <= 2 ^ 15 ->
  exists m k : positive,
    Z.pos m = Z.abs z /\ Z.pos k = prec - Z.pos (digits2_pos m) /\
    bounded prec emax (Pos.iter xO m k) (- Z.pos k) = true /\
    binary_normalize prec emax z 0 false
      = S754_finite (z <? 0) (Pos.iter xO m k) (- Z.pos k).
Proof.
  intros Hz Hr.
  assert (Hm : exists m, Z.pos m = Z.abs z /\
             binary_normalize prec emax z 0 false
               = binary_round prec emax (z <? 0) m 0).
  { destruct z as [ | p | p]; [lia | exists p | exists p]; split; reflexivity. }
  destruct Hm as (m & Hm & ->).
  pose proof (digits2_pos_int16 m ltac:(lia)) as Hd.
  destruct (prec - Z.pos (digits2_pos m)) as [ | k | k] eqn:Hk; try lia.
  exists m, k.
  assert (Hb : bounded prec emax (Pos.iter xO m k) (- Z.pos k) = true).
  { unfold bounded, canonical_mantissa. rewrite digits2_pos_iter_xO.
    apply andb_true_iff. split.
    - apply Z.eqb_eq. unfold fexp, emin. lia.
    - apply Z.leb_le. lia. }
  split; [exact Hm | split; [now symmetry | split; [exact Hb | ]]].
  change (- Z.pos k) with (0 - Z.pos k).
  now apply binary_round_shl.
Qed.
End IntToFloat.

Lemma float_to_int16_shifted s m k :
  int16_range (cond_Zopp s (Z.pos m)) ->
  float_to_int16 (S754_finite s (Pos.iter xO m k) (- Z.pos k))
  = Some (cond_Zopp s (Z.pos m)).
Proof.
  intros Hr. change (- Z.pos k) with (Z.neg k).
  cbv beta iota zeta delta [float_to_int16 integral_part].
  rewrite Z.shiftr_div_pow2, Pos_iter_xO, Z.div_mul by lia.
  unfold int16_range in Hr.
  set (z := cond_Zopp s (Z.pos m)) in *.
  replace (- 2 ^ 15 <=? z) with true by (symmetry; apply Z.leb_le; lia).
  replace (z <? 2 ^ 15) with true by (symmetry; apply Z.ltb_lt; lia).
  reflexivity.
Qed.

Lemma cond_Zopp_abs z m : Z.pos m = Z.abs z -> cond_Zopp (z <? 0) (Z.pos m) = z.
Proof.
  intros ->. unfold cond_Zopp. destruct (Z.ltb_spec z 0); lia.
Qed.

(** A 16-bit integer survives conversion to floating point, scaling by 1.0
    and truncation. *)
Lemma float_of_int16_back z :
  int16_range z ->
  f32_mul (int_to_float z) f32_1_0 = int_to_float z /\
  float_to_int16 (int_to_float z) = Some z.
Proof.
  intros Hr. destruct (Z.eq_dec z 0) as [-> | Hz]; [split; reflexivity | ].
  unfold int16_range in Hr.
  destruct (binary_normalize_int16 24 128 ltac:(lia) ltac:(lia) z Hz ltac:(lia))
    as (m & k & Hm & Hk & Hb & Heq).
  unfold int_to_float. rewrite Heq. split.
  - now apply f32_mul_one.
  - rewrite float_to_int16_shifted; rewrite (cond_Zopp_abs z m Hm); trivial.
Qed.

Lemma double_of_int16_back z :
  int16_range z ->
  f64_mul (int_to_double z) f64_1_0 = int_to_double z /\
  float_to_int16 (int_to_double z) = Some z.
Proof.
  intros Hr. destruct (Z.eq_dec z 0) as [-> | Hz]; [split; reflexivity | ].
  unfold int16_range in Hr.
  destruct (binary_normalize_int16 53 1024 ltac:(lia) ltac:(lia) z Hz ltac:(lia))
    as (m & k & Hm & Hk & Hb & Heq).
  unfold int_to_double. rewrite Heq. split.
  - now apply f64_mul_one.
  - rewrite float_to_int16_shifted; rewrite (cond_Zopp_abs z m Hm); trivial.
Qed.

(** Rounding the double of a 16-bit integer to single precision gives the
    float of that integer, and widening gives the double back. *)
Lemma double_float_of_int16 z :
  int16_range z ->
  double_to_float (int_to_double z) = int_to_float z /\
  float_to_double (int_to_float z) = int_to_double z.
Proof.
  intros Hr. destruct (Z.eq_dec z 0) as [-> | Hz]; [split; reflexivity | ].
  unfold int16_range in Hr.
  destruct (binary_normalize_int16 24 128 ltac:(lia) ltac:(lia) z Hz ltac:(lia))
    as (m & k & Hm & Hk & Hb & Heq).
  destruct (binary_normalize_int16 53 1024 ltac:(lia) ltac:(lia) z Hz ltac:(lia))
    as (m' & k' & Hm' & Hk' & Hb' & Heq').
  assert (m' = m) by (apply Pos2Z.inj; congruence). subst m'.
  assert (Hkk : k' = (29 + k)%positive) by lia. subst k'.
  unfold int_to_double, int_to_float. rewrite Heq, Heq'.
  assert (Hiter : Pos.iter xO m (29 + k) = Pos.iter xO (Pos.iter xO m k) 29).
  { apply Pos.iter_add. }
  split.
  - unfold double_to_float, binary_round, shl_align.
    rewrite digits2_pos_iter_xO.
    replace (fexp 24 128 (Z.pos (digits2_pos m) + Z.pos (29 + k)
                          + - Z.pos (29 + k)) - - Z.pos (29 + k))
      with 29 by (unfold fexp, emin; lia).
    rewrite Hiter.
    replace (- Z.pos (29 + k)) with (- Z.pos k - 29) by lia.
    now apply binary_round_aux_shifted.
  - destruct (float_to_double_finite (z <? 0) _ _ Hb) as (j & Hj & ->).
    rewrite digits2_pos_iter_xO in Hj.
    assert (j = 29%positive) by lia. subst j.
    rewrite Hiter. f_equal. lia.
Qed.

Lemma item32_pack_unpack w a b :
  uint32_range w -> sc16_to_item32 (item32_to_sc16 w b) a = w.
Proof.
  intros Hw. rewrite sc16_to_item32_sum. unfold item32_to_sc16; simpl real; simpl imag.
  rewrite !to_uint16_to_int16, Z.shiftr_0_r.
  unfold to_uint16. rewrite Z.shiftr_div_pow2 by lia.
  unfold uint32_range in Hw.
  rewrite (Z.mod_small (w / 2 ^ 16)).
  - pose proof (Z.div_mod w (2 ^ 16)). lia.
  - split; [apply Z.div_pos; lia | ].
    apply Z.div_lt_upper_bound; lia.
Qed.

Lemma item32_unpack_pack s a b :
  sc16_wf s -> item32_to_sc16 (sc16_to_item32 s a) b = s.
Proof.
  intros [Hre Him]. destruct s as [re im]; simpl in *.
  unfold item32_to_sc16. rewrite sc16_to_item32_sum; simpl real; simpl imag.
  pose proof (to_uint16_range re) as Hr.
  pose proof (to_uint16_range im) as Hi.
  f_equal.
  - rewrite <- to_int16_mod.
    fold (bit_field (to_uint16 re * 2 ^ 16 + to_uint16 im) 16 16).
    rewrite bit_field_hi16 by assumption. now apply to_int16_to_uint16.
  - rewrite Z.shiftr_0_r, <- to_int16_mod.
    rewrite Z.add_comm, Z.mod_add by lia.
    rewrite (to_int16_mod (to_uint16 im)). now apply to_int16_to_uint16.
Qed.

Lemma item32_to_fc32_one w :
  item32_to_fc32 w f32_1_0
  = Complex (int_to_float (to_int16 (Z.shiftr w 16)))
            (int_to_float (to_int16 (Z.shiftr w 0))).
Proof.
  unfold item32_to_fc32. f_equal;
    apply float_of_int16_back, to_int16_range.
Qed.

Lemma item32_to_fc64_one w :
  item32_to_fc64 w f64_1_0
  = Complex (int_to_double (to_int16 (Z.shiftr w 16)))
            (int_to_double (to_int16 (Z.shiftr w 0))).
Proof.
  unfold item32_to_fc64.
  rewrite !(proj1 (double_of_int16_back _ (to_int16_range _))).
  rewrite !(proj1 (double_float_of_int16 _ (to_int16_range _))).
  rewrite !(proj2 (double_float_of_int16 _ (to_int16_range _))).
  reflexivity.
Qed.

(** X1. With scale factor 1.0, converting any 32-bit word to complex
    floating-32 and back gives the word again. *)
Theorem item32_fc32_round_trip (w : item32_t) :
  uint32_range w ->
  fc32_to_item32 (item32_to_fc32 w f32_1_0) f32_1_0 = Some w.
Proof.
  intros Hw. rewrite item32_to_fc32_one. unfold fc32_to_item32; cbn [real imag].
  rewrite !(proj1 (float_of_int16_back _ (to_int16_range _))).
  rewrite !(proj2 (float_of_int16_back _ (to_int16_range _))).
  f_equal. exact (item32_pack_unpack w f32_1_0 f32_1_0 Hw).
Qed.

Lemma item32_fc32_round_trip_witness :
  fc32_to_item32 (item32_to_fc32 0x8001FFFE f32_1_0) f32_1_0 = Some 0x8001FFFE.
Proof.
  apply (item32_fc32_round_trip 0x8001FFFE). unfold uint32_range. lia.
Defined.

(** X2. With scale factor 1.0, converting any 32-bit word to complex
    floating-64 and back gives the word again: the detour of the components
    through single precision loses nothing on 16-bit integers. *)
Theorem item32_fc64_round_trip (w : item32_t) :
  uint32_range w ->
  fc64_to_item32 (item32_to_fc64 w f64_1_0) f64_1_0 = Some w.
Proof.
  intros Hw. rewrite item32_to_fc64_one. unfold fc64_to_item32; cbn [real imag].
  rewrite !(proj1 (double_of_int16_back _ (to_int16_range _))).
  rewrite !(proj2 (double_of_int16_back _ (to_int16_range _))).
  f_equal. exact (item32_pack_unpack w f64_1_0 f64_1_0 Hw).
Qed.

Lemma item32_fc64_round_trip_witness :
  fc64_to_item32 (item32_to_fc64 0x8001FFFE f64_1_0) f64_1_0 = Some 0x8001FFFE.
Proof.
  apply (item32_fc64_round_trip 0x8001FFFE). unfold uint32_range. lia.
Defined.

Lemma SF2Q_shifted s m k :
  Qeq (SF2Q (S754_finite s (Pos.iter xO m k) (- Z.pos k)))
      (inject_Z (cond_Zopp s (Z.pos m))).
Proof.
  change (- Z.pos k) with (Z.neg k). unfold SF2Q, Qeq, inject_Z; simpl Qnum; simpl Qden.
  rewrite Pos2Z.inj_pow.
  destruct s; unfold cond_Zopp; rewrite Pos_iter_xO; lia.
Qed.

Lemma SF2Q_of_int16 prec emax z :
  16 < prec -> prec < emax -> int16_range z ->
  Qeq (SF2Q (binary_normalize prec emax z 0 false)) (inject_Z z).
Proof.
  intros Hp He Hr. destruct (Z.eq_dec z 0) as [-> | Hz]; [reflexivity | ].
  unfold int16_range in Hr.
  destruct (binary_normalize_int16 prec emax Hp He z Hz ltac:(lia))
    as (m & k & Hm & Hk & Hb & ->).
  rewrite SF2Q_shifted, (cond_Zopp_abs z m Hm). reflexivity.
Qed.

(** X3. With scale factor 1.0 the fixed-to-floating kernels are exact: each
    floating component of the result denotes the integer that unpacking the
    word as a complex-short sample gives. *)
Theorem item32_to_float_exact_at_one (w : item32_t) (a : spec_float) :
  Qeq (SF2Q (real (item32_to_fc32 w f32_1_0))) (inject_Z (real (item32_to_sc16 w a))) /\
  Qeq (SF2Q (imag (item32_to_fc32 w f32_1_0))) (inject_Z (imag (item32_to_sc16 w a))) /\
  Qeq (SF2Q (real (item32_to_fc64 w f64_1_0))) (inject_Z (real (item32_to_sc16 w a))) /\
  Qeq (SF2Q (imag (item32_to_fc64 w f64_1_0))) (inject_Z (imag (item32_to_sc16 w a))).
Proof.
  rewrite item32_to_fc32_one, item32_to_fc64_one.
  unfold item32_to_sc16, int_to_float, int_to_double; cbn [real imag].
  repeat split; apply SF2Q_of_int16; try lia; apply to_int16_range.
Qed.

(** X4. Whenever a floating-to-fixed kernel yields a word, the word is a
    32-bit value and unpacking it as a complex-short sample gives exactly the
    truncated products, so the two conversions compose. *)
Theorem float_to_item32_unpacks (n32 n64 : complex spec_float)
    (s32 s64 b : spec_float) (w32 w64 : item32_t) :
  fc32_to_item32 n32 s32 = Some w32 ->
  fc64_to_item32 n64 s64 = Some w64 ->
  (uint32_range w32 /\
   truncated_component (f32_mul (real n32) s32) (real (item32_to_sc16 w32 b)) /\
   truncated_component (f32_mul (imag n32) s32) (imag (item32_to_sc16 w32 b))) /\
  (uint32_range w64 /\
   truncated_component (f64_mul (real n64) s64) (real (item32_to_sc16 w64 b)) /\
   truncated_component (f64_mul (imag n64) s64) (imag (item32_to_sc16 w64 b))).
Proof.
  assert (Hgen : forall (mul : spec_float -> spec_float -> spec_float)
                   (num : complex spec_float) sf w,
            (exists re im,
               truncated_component (mul (real num) sf) re /\
               truncated_component (mul (imag num) sf) im /\
               w = sc16_to_item32 (Complex re im) sf) ->
            uint32_range w /\
            truncated_component (mul (real num) sf) (real (item32_to_sc16 w b)) /\
            truncated_component (mul (imag num) sf) (imag (item32_to_sc16 w b))).
  { intros mul num sf w (re & im & Hre & Him & ->).
    assert (Hwf : sc16_wf (Complex re im)) by (split; [apply Hre | apply Him]).
    rewrite (item32_unpack_pack _ sf b Hwf). split; [ | split; assumption].
    rewrite sc16_to_item32_sum.
    pose proof (to_uint16_range re). pose proof (to_uint16_range im).
    unfold uint32_range, uint16_range in *. simpl real; simpl imag. lia. }
  intros H32 H64. split.
  - apply (Hgen f32_mul). now apply (float_to_fixed_32 f32_mul).
  - apply (Hgen f64_mul). now apply (float_to_fixed_32 f64_mul).
Qed.

Lemma float_to_item32_unpacks_witness :
  truncated_component (f32_mul f32_1_9999 f32_1_0)
    (real (item32_to_sc16 0x0001FFFF f32_1_0)) /\
  truncated_component (f64_mul (SFopp f64_1_9999) f64_1_0)
    (imag (item32_to_sc16 0x0001FFFF f32_1_0)).
Proof.
  pose proof (float_to_item32_unpacks
                (Complex f32_1_9999 (SFopp f32_1_9999))
                (Complex f64_1_9999 (SFopp f64_1_9999))
                f32_1_0 f64_1_0 f32_1_0 0x0001FFFF 0x0001FFFF
                eq_refl eq_refl) as [(_ & H1 & _) (_ & _ & H2)].
  exact (conj H1 H2).
Defined.

(** ** The packed 16-bit word, continued *)

(** X5. Unpacking any 16-bit word and packing the sample again gives the
    word back, although the two components overlap. *)
Theorem item16_pack_unpack (w : item16_t) (a b : spec_float) :
  uint16_range w -> sc16_to_item16 (item16_to_sc16 w b) a = w.
Proof.
  unfold uint16_range. intros Hw.
  unfold sc16_to_item16, item16_to_sc16; simpl real; simpl imag.
  rewrite !to_uint16_to_int16, Z.shiftr_0_r, Z.shiftl_0_r.
  apply Z.bits_inj'. intros i Hi.
  rewrite to_uint16_testbit, Z.lor_spec, !to_uint16_testbit.
  destruct (Z.ltb_spec i 16) as [Hlt | Hge]; simpl.
  - destruct (Z.lt_ge_cases i 8) as [Hlo | Hhi].
    + rewrite Z.shiftl_spec_low by lia. reflexivity.
    + rewrite Z.shiftl_spec, to_uint16_testbit, Z.shiftr_spec by lia.
      replace (i - 8 + 8) with i by lia.
      destruct (Z.testbit w i); [apply orb_true_r | ].
      rewrite orb_false_r. apply andb_false_r.
  - symmetry. rewrite <- (Z.mod_small w (2 ^ 16)) by lia.
    apply Z.mod_pow2_bits_high. lia.
Qed.

Lemma item16_pack_unpack_witness :
  sc16_to_item16 (item16_to_sc16 0xFF80 f32_1_0) f32_1_0 = 0xFF80.
Proof.
  apply (item16_pack_unpack 0xFF80). unfold uint16_range. lia.
Defined.

(** X6. When the imaginary component lies in 0..255, packing into the 16-bit
    word is the intended layout: the real component modulo 256 in bits 15-8
    and the imaginary component in bits 7-0. *)
Theorem sc16_to_item16_small_imag (num : sc16_t) (a : spec_float) :
  0 <= imag num < 2 ^ 8 ->
  sc16_to_item16 num a = (real num mod 2 ^ 8) * 2 ^ 8 + imag num /\
  bit_field (sc16_to_item16 num a) 8 8 = real num mod 2 ^ 8 /\
  bit_field (sc16_to_item16 num a) 0 8 = imag num.
Proof.
  intros Him.
  destruct (sc16_to_item16_fields num a) as [Hlo Hhi].
  assert (Hup : bit_field (to_uint16 (imag num)) 8 8 = 0).
  { unfold bit_field, to_uint16. rewrite (Z.mod_small (imag num)) by lia.
    rewrite Z.shiftr_div_pow2, Z.div_small by lia. reflexivity. }
  rewrite Hup, Z.lor_0_r in Hhi.
  rewrite (Z.mod_small (imag num)) in Hlo by lia.
  split; [ | split; assumption].
  assert (Hrange : uint16_range (sc16_to_item16 num a)) by apply to_uint16_range.
  unfold bit_field, uint16_range in *.
  rewrite Z.shiftr_div_pow2 in Hhi by lia. rewrite Z.shiftr_0_r in Hlo.
  set (w := sc16_to_item16 num a) in *.
  assert (Hq : w / 2 ^ 8 = real num mod 2 ^ 8).
  { rewrite <- Hhi. symmetry. apply Z.mod_small.
    split; [apply Z.div_pos; lia | apply Z.div_lt_upper_bound; lia]. }
  pose proof (Z.div_mod w (2 ^ 8)). lia.
Qed.

Lemma sc16_to_item16_small_imag_witness :
  sc16_to_item16 (Complex (-2) 255) f32_1_0 = 0xFEFF.
Proof.
  pose proof (sc16_to_item16_small_imag (Complex (-2) 255) f32_1_0) as H.
  simpl real in H; simpl imag in H.
  destruct H as [H _]; [lia | ]. exact H.
Defined.

(** ** Decoding the capabilities register *)

Lemma land_shiftr_field x lo n :
  0 <= lo -> 0 <= n ->
  Z.land (Z.shiftr x lo) (Z.ones n) = (x / 2 ^ lo) mod 2 ^ n.
Proof.
  intros Hlo Hn. rewrite Z.land_ones, Z.shiftr_div_pow2 by lia. reflexivity.
Qed.

(** X7. On a capabilities register laid out as the source documents, with
    any reserved bits, the four readers return exactly the four fields: no
    field leaks into another. *)
Theorem caps_register_decode (env : usrp1_env) (reserved ddcs ducs : Z)
    (rx_hb tx_hb : bool) :
  0 <= ddcs < 8 -> 0 <= ducs < 8 ->
  FR_RB_CAPS env = caps_register reserved tx_hb ducs rx_hb ddcs ->
  get_num_ddcs env = Z.to_nat ddcs /\
  get_num_ducs env = Z.to_nat ducs /\
  has_rx_halfband env = rx_hb /\
  has_tx_halfband env = tx_hb.
Proof.
  intros Hd Hu Hcaps.
  unfold get_num_ddcs, get_num_ducs, has_rx_halfband, has_tx_halfband.
  rewrite Hcaps. unfold caps_register.
  assert (Hr : 0 <= Z.b2z rx_hb <= 1) by (destruct rx_hb; simpl; lia).
  assert (Ht : 0 <= Z.b2z tx_hb <= 1) by (destruct tx_hb; simpl; lia).
  set (x := reserved * 2 ^ 8 + Z.b2z tx_hb * 2 ^ 7 + ducs * 2 ^ 4
            + Z.b2z rx_hb * 2 ^ 3 + ddcs).
  assert (H0 : Z.land (Z.shiftr x 0) 7 = ddcs).
  { change 7 with (Z.ones 3). rewrite (land_shiftr_field x 0 3) by lia.
    subst x. change (2 ^ 0) with 1. rewrite Z.div_1_r.
    Z.div_mod_to_equations. lia. }
  assert (H4 : Z.land (Z.shiftr x 4) 7 = ducs).
  { change 7 with (Z.ones 3). rewrite (land_shiftr_field x 4 3) by lia.
    subst x. Z.div_mod_to_equations. lia. }
  assert (H3 : Z.land (Z.shiftr x 3) 1 = Z.b2z rx_hb).
  { change 1 with (Z.ones 1). rewrite (land_shiftr_field x 3 1) by lia.
    subst x. Z.div_mod_to_equations. lia. }
  assert (H7 : Z.land (Z.shiftr x 7) 1 = Z.b2z tx_hb).
  { change 1 with (Z.ones 1). rewrite (land_shiftr_field x 7 1) by lia.
    subst x. Z.div_mod_to_equations. lia. }
  rewrite H0, H4, H3, H7.
  repeat split; try lia.
  - destruct rx_hb; reflexivity.
  - destruct tx_hb; reflexivity.
Qed.

Lemma caps_register_decode_witness :
  get_num_ddcs example_env = 2%nat /\ get_num_ducs example_env = 2%nat /\
  has_rx_halfband example_env = false /\ has_tx_halfband example_env = true.
Proof.
  apply (caps_register_decode example_env 0xABCDEF 2 2 false true).
  - lia.
  - lia.
  - reflexivity.
Defined.

(** X8. Whatever the register holds, the decoded DDC and DUC counts never
    exceed 7, and the constructor creates exactly four nodes per DDC and
    three per DUC in its two DSP loops. *)
Theorem dsp_counts_bounded (env : usrp1_env) :
  (get_num_ddcs env <= 7)%nat /\ (get_num_ducs env <= 7)%nat /\
  length (created_paths (flat_map rx_dsp_ops (seq 0 (get_num_ddcs env))))
    = (4 * get_num_ddcs env)%nat /\
  length (created_paths (flat_map tx_dsp_ops (seq 0 (get_num_ducs env))))
    = (3 * get_num_ducs env)%nat.
Proof.
  assert (Hland : forall x, 0 <= Z.land x 7 <= 7).
  { intros x. change 7 with (Z.ones 3) at 1 2. rewrite Z.land_ones by lia.
    pose proof (Z.mod_pos_bound x (2 ^ 3)). lia. }
  assert (Hn1 : (get_num_ddcs env <= 7)%nat).
  { unfold get_num_ddcs. pose proof (Hland (Z.shiftr (FR_RB_CAPS env) 0)). lia. }
  assert (Hn2 : (get_num_ducs env <= 7)%nat).
  { unfold get_num_ducs. pose proof (Hland (Z.shiftr (FR_RB_CAPS env) 4)). lia. }
  assert (Hrx : forall start n,
            length (created_paths (flat_map rx_dsp_ops (seq start n))) = (4 * n)%nat).
  { intros start n. revert start.
    induction n as [ | n IH]; intros start; cbn [seq flat_map].
    - reflexivity.
    - rewrite created_paths_app, length_app, IH.
      unfold rx_dsp_ops. rewrite created_paths_app, length_app.
      destruct (decide (start = 0%nat)); simpl; lia. }
  assert (Htx : forall start n,
            length (created_paths (flat_map tx_dsp_ops (seq start n))) = (3 * n)%nat).
  { intros start n. revert start.
    induction n as [ | n IH]; intros start; cbn [seq flat_map].
    - reflexivity.
    - rewrite created_paths_app, length_app, IH. simpl. lia. }
  rewrite Hrx, Htx. repeat split; trivial.
Qed.

(** ** Discovery *)

Section Discovery.
Context {handle bus : Type}.
Variable usb : usb_env handle bus.

(** The addresses reported for the enumerated handles, as a filter. *)
Lemma report_loop_spec hint b handles : forall acc,
  report_loop usb hint b handles acc
  = acc ++ map (new_addr usb b)
             (filter (fun h => usb_control_make usb b h = true /\
                               hint_matches hint (new_addr usb b h) = true)
                     handles).
Proof.
  induction handles as [ | h rest IH]; intros acc; simpl.
  - now rewrite app_nil_r.
  - rewrite filter_cons.
    destruct (usb_control_make usb b h) eqn:Hc.
    + destruct (hint_matches hint (new_addr usb b h)) eqn:Hm.
      * rewrite decide_True by auto. rewrite IH, <- app_assoc. reflexivity.
      * rewrite decide_False by (intros [_ ?]; discriminate). apply IH.
    + rewrite decide_False by (intros [? _]; discriminate). apply IH.
Qed.

Lemma new_addr_lookup b h :
  new_addr usb b h !! "type"%string = Some "usrp1"%string /\
  new_addr usb b h !! "name"%string = Some (mb_eeprom_name usb b h) /\
  new_addr usb b h !! "serial"%string = Some (get_serial usb h).
Proof. unfold new_addr, device_addr_t. repeat split; by simplify_map_eq. Qed.

Lemma hint_matches_spec hint b h :
  hint_matches hint (new_addr usb b h) = true <->
  (forall n, hint !! "name"%string = Some n -> n = mb_eeprom_name usb b h) /\
  (forall s, hint !! "serial"%string = Some s -> s = get_serial usb h).
Proof.
  destruct (new_addr_lookup b h) as (_ & Hn & Hs).
  unfold hint_matches, has_key, dict_get. rewrite Hn, Hs. simpl.
  rewrite andb_true_iff, !orb_true_iff, !negb_true_iff.
  rewrite !bool_decide_eq_false, !bool_decide_eq_true.
  unfold device_addr_t in *.
  destruct (hint !! "name"%string) as [n | ];
    destruct (hint !! "serial"%string) as [s | ]; simpl.
  all: split; [intros [H1 H2]; split; intros ? [= <-] | intros [H1 H2]; split].
  all: try (destruct H1 as [H1 | H1]; [exfalso; apply H1; eauto | exact H1]).
  all: try (destruct H2 as [H2 | H2]; [exfalso; apply H2; eauto | exact H2]).
  all: try (right; eauto; fail).
  all: try (left; intros [? ?]; discriminate).
Qed.
Lemma load_firmware_loop_found hint img handles : forall b,
  find_image_path usb (dict_get hint "fw" "usrp1_fw.ihx") = Some img ->
  load_firmware_loop usb hint handles b
  = Some (fold_left (fun b h => if usb_control_make usb b h
                                then usrp_load_firmware usb h img b else b)
                    handles b).
Proof.
  intros b Himg. revert b.
  induction handles as [ | h rest IH]; intros b; simpl; [reflexivity | ].
  rewrite Himg. destruct (usb_control_make usb b h); apply IH.
Qed.

Lemma hint_gate_open hint :
  (hint !! "type"%string = None \/ hint !! "type"%string = Some "usrp1"%string) ->
  hint !! "addr"%string = None ->
  has_key hint "type"
    && negb (bool_decide (dict_get hint "type" "" = "usrp1"%string)) = false /\
  has_key hint "addr" = false.
Proof.
  unfold has_key, dict_get, device_addr_t. intros Hty ->. split.
  - destruct Hty as [-> | ->]; reflexivity.
  - apply bool_decide_eq_false_2. intros [? ?]. discriminate.
Qed.

(** X9. Discovery gives up without touching the bus in three cases: the hint
    names another device type, the hint carries an address, or the firmware
    image cannot be located while at least one device is enumerated for the
    firmware load.  No address is returned, not even for initialised devices
    that are present. *)
Theorem usrp1_find_rejects (hint : device_addr_t) (b : bus) :
  (exists t, hint !! "type"%string = Some t /\ t <> "usrp1"%string) \/
  is_Some (hint !! "addr"%string) \/
  (find_image_path usb (dict_get hint "fw" "usrp1_fw.ihx") = None /\
   get_device_list usb b
     (if has_key hint "uninit" then FX2_VENDOR_ID else USRP1_VENDOR_ID)
     (if has_key hint "uninit" then FX2_PRODUCT_ID else USRP1_PRODUCT_ID) <> []) ->
  usrp1_find usb hint b = ([], b).
Proof.
  unfold usrp1_find. intros [(t & Ht & Hne) | [Haddr | [Himg Hdev]]].
  - assert (Hk : has_key hint "type" = true).
    { unfold has_key. apply bool_decide_eq_true_2. rewrite Ht. eauto. }
    assert (Hd : dict_get hint "type" "" = t).
    { unfold dict_get. now rewrite Ht. }
    rewrite Hk, Hd, bool_decide_eq_false_2 by exact Hne. reflexivity.
  - destruct (has_key hint "type" && _); [reflexivity | ].
    assert (Hk : has_key hint "addr" = true).
    { unfold has_key. now apply bool_decide_eq_true_2. }
    rewrite Hk. reflexivity.
  - destruct (has_key hint "type" && _); [reflexivity | ].
    destruct (has_key hint "addr"); [reflexivity | ].
    cbv zeta.
    destruct (get_device_list usb b _ _) as [ | h rest]; [congruence | ].
    simpl. rewrite Himg. reflexivity.
Qed.

(** X10. When the hint passes the two gates and the firmware image is found,
    discovery loads the firmware into every device that can be opened, and
    reports, in enumeration order, exactly the devices of the second
    enumeration that can be opened and match the hint. *)
Theorem usrp1_find_result (hint : device_addr_t) (b : bus) (img : string) :
  (hint !! "type"%string = None \/ hint !! "type"%string = Some "usrp1"%string) ->
  hint !! "addr"%string = None ->
  find_image_path usb (dict_get hint "fw" "usrp1_fw.ihx") = Some img ->
  let b' :=
    fold_left (fun b h => if usb_control_make usb b h
                          then usrp_load_firmware usb h img b else b)
      (get_device_list usb b
         (if has_key hint "uninit" then FX2_VENDOR_ID else USRP1_VENDOR_ID)
         (if has_key hint "uninit" then FX2_PRODUCT_ID else USRP1_PRODUCT_ID))
      b in
  usrp1_find usb hint b =
    (map (new_addr usb b')
       (filter (fun h => usb_control_make usb b' h = true /\
                         hint_matches hint (new_addr usb b' h) = true)
          (get_device_list usb b' USRP1_VENDOR_ID USRP1_PRODUCT_ID)),
     b').
Proof.
  intros Hty Haddr Himg b'.
  destruct (hint_gate_open hint Hty Haddr) as [Hg1 Hg2].
  unfold usrp1_find. rewrite Hg1, Hg2. cbv zeta.
  rewrite (load_firmware_loop_found hint img _ b Himg).
  fold b'. rewrite report_loop_spec. reflexivity.
Qed.

(** X11. Every address discovery reports describes a USRP1 that satisfies the
    hint: its type is usrp1, it carries the EEPROM name and the serial of a
    device enumerated under the USRP1 ids that could be opened, and where the
    hint gives a name or a serial the address has that very name or serial.
    Nothing is reported for a hint of another type or with an address. *)
Theorem usrp1_find_sound (hint a : device_addr_t) (b : bus) :
  a ∈ fst (usrp1_find usb hint b) ->
  (hint !! "type"%string = None \/ hint !! "type"%string = Some "usrp1"%string) /\
  hint !! "addr"%string = None /\
  a !! "type"%string = Some "usrp1"%string /\
  (forall n, hint !! "name"%string = Some n -> a !! "name"%string = Some n) /\
  (forall s, hint !! "serial"%string = Some s -> a !! "serial"%string = Some s) /\
  exists h,
    h ∈ get_device_list usb (snd (usrp1_find usb hint b))
          USRP1_VENDOR_ID USRP1_PRODUCT_ID /\
    usb_control_make usb (snd (usrp1_find usb hint b)) h = true /\
    a !! "name"%string = Some (mb_eeprom_name usb (snd (usrp1_find usb hint b)) h) /\
    a !! "serial"%string = Some (get_serial usb h).
Proof.
  unfold usrp1_find.
  destruct (has_key hint "type"
            && negb (bool_decide (dict_get hint "type" "" = "usrp1"%string)))
    eqn:Hg1; [intros H; inversion H | ].
  destruct (has_key hint "addr") eqn:Hg2; [intros H; inversion H | ].
  cbv zeta.
  destruct (load_firmware_loop usb hint _ b) as [b' | ]; [ | intros H; inversion H].
  cbn [fst snd]. rewrite report_loop_spec, app_nil_l.
  intros Ha. apply list_elem_of_fmap in Ha. destruct Ha as (h & -> & Hh).
  apply list_elem_of_filter in Hh. destruct Hh as [[Hc Hm] Hin].
  apply hint_matches_spec in Hm. destruct Hm as [Hname Hserial].
  destruct (new_addr_lookup b' h) as (Ht & Hn & Hs).
  unfold has_key, dict_get, device_addr_t in *.
  split; [ | split; [ | split; [exact Ht | split; [ | split]]]].
  - destruct (hint !! "type"%string) as [t | ] eqn:Et; [right | now left].
    f_equal. destruct (decide (t = "usrp1"%string)) as [Heq | Hne]; [exact Heq | ].
    exfalso. cbn [default] in Hg1.
    assert (Hsome : bool_decide (is_Some (Some t)) = true).
    { apply bool_decide_eq_true_2. eauto. }
    rewrite Hsome, bool_decide_eq_false_2 in Hg1 by exact Hne. discriminate.
  - apply bool_decide_eq_false in Hg2.
    destruct (hint !! "addr"%string); [exfalso; apply Hg2; eauto | reflexivity].
  - intros n Hn'. rewrite Hn. f_equal. symmetry. now apply Hname.
  - intros s Hs'. rewrite Hs. f_equal. symmetry. now apply Hserial.
  - exists h. auto.
Qed.
End Discovery.

Lemma usrp1_find_rejects_witness :
  usrp1_find example_usb {[ "type"%string := "usrp2"%string ]} 0%nat = ([], 0%nat) /\
  usrp1_find example_usb {[ "fw"%string := "missing.ihx"%string ]} 0%nat = ([], 0%nat).
Proof.
  split.
  - apply (usrp1_find_rejects example_usb). left. exists "usrp2"%string.
    split; [apply lookup_singleton_eq | discriminate].
  - apply (usrp1_find_rejects example_usb). right. right.
    split; [reflexivity | discriminate].
Defined.

Lemma usrp1_find_result_witness :
  usrp1_find example_usb {[ "serial"%string := "3"%string ]} 0%nat
  = ([new_addr example_usb 2%nat 3%nat], 2%nat).
Proof.
  rewrite (usrp1_find_result example_usb {[ "serial"%string := "3"%string ]} 0%nat
             "/usr/share/uhd/images/usrp1_fw.ihx").
  - reflexivity.
  - left. reflexivity.
  - reflexivity.
  - reflexivity.
Defined.

Lemma usrp1_find_sound_witness :
  new_addr example_usb 2%nat 3%nat !! "type"%string = Some "usrp1"%string /\
  new_addr example_usb 2%nat 3%nat !! "serial"%string = Some "3"%string.
Proof.
  assert (Hin : new_addr example_usb 2%nat 3%nat
                ∈ fst (usrp1_find example_usb {[ "serial"%string := "3"%string ]} 0%nat)).
  { replace (fst (usrp1_find example_usb {[ "serial"%string := "3"%string ]} 0%nat))
      with [new_addr example_usb 2%nat 3%nat] by reflexivity.
    apply list_elem_of_here. }
  destruct (usrp1_find_sound example_usb _ _ _ Hin) as (_ & _ & Ht & _ & Hs & _).
  split; [exact Ht | ]. apply Hs. apply lookup_singleton_eq.
Defined.

(** ** Daughterboard EEPROM write-back *)

(** X12. Writing back a daughterboard EEPROM of kind rx, tx or gdb stores it
    exactly once, at the address the constructor loaded that EEPROM from;
    any other kind stores nothing; and whatever the I2C constants are, the
    gdb address differs from the tx address of the same slot. *)
Theorem set_db_eeprom_addresses (RX_A RX_B TX_A TX_B : Z) (db type : string) :
  set_db_eeprom RX_A RX_B TX_A TX_B db "rx"
    = [fst (fst (dboard_eeprom_load_addrs RX_A RX_B TX_A TX_B db))] /\
  set_db_eeprom RX_A RX_B TX_A TX_B db "tx"
    = [snd (fst (dboard_eeprom_load_addrs RX_A RX_B TX_A TX_B db))] /\
  set_db_eeprom RX_A RX_B TX_A TX_B db "gdb"
    = [snd (dboard_eeprom_load_addrs RX_A RX_B TX_A TX_B db)] /\
  (type ∉ ["rx"; "tx"; "gdb"]%string ->
   set_db_eeprom RX_A RX_B TX_A TX_B db type = []) /\
  snd (dboard_eeprom_load_addrs RX_A RX_B TX_A TX_B db)
    <> snd (fst (dboard_eeprom_load_addrs RX_A RX_B TX_A TX_B db)).
Proof.
  assert (Hx : forall x, Z.lxor x 5 <> x).
  { intros x H. assert (H5 : Z.lxor x (Z.lxor x 5) = 5).
    { rewrite <- Z.lxor_assoc, Z.lxor_nilpotent. reflexivity. }
    rewrite H, Z.lxor_nilpotent in H5. discriminate. }
  split; [reflexivity | split; [reflexivity | split; [reflexivity | split]]].
  - intros Hty. unfold set_db_eeprom.
    rewrite !bool_decide_eq_false_2; [reflexivity | | | ].
    all: intros ->; apply Hty; set_solver.
  - unfold dboard_eeprom_load_addrs; simpl.
    destruct (bool_decide (db = "A"%string)); apply Hx.
Qed.

Lemma set_db_eeprom_addresses_witness :
  set_db_eeprom 0x55 0x57 0x54 0x56 "B" "eeprom" = [] /\
  set_db_eeprom 0x55 0x57 0x54 0x56 "B" "gdb" = [0x53].
Proof.
  destruct (set_db_eeprom_addresses 0x55 0x57 0x54 0x56 "B" "eeprom")
    as (_ & _ & Hg & Hnone & _).
  split; [ | exact Hg].
  apply Hnone. intros H. repeat (apply elem_of_cons in H; destruct H as [H | H];
    [discriminate | ]). inversion H.
Defined.

(** ** The accesses of the constructor *)

Lemma accesses_found_app l1 : forall seen l2,
  accesses_found seen l1 ->
  (forall seen', (forall x, x ∈ seen \/ x ∈ created_paths l1 -> x ∈ seen') ->
                 accesses_found seen' l2) ->
  accesses_found seen (l1 ++ l2).
Proof.
  induction l1 as [ | [p | p] l1 IH]; intros seen l2 H1 H2; simpl in *.
  - apply H2. intros x [Hx | Hx]; [exact Hx | inversion Hx].
  - apply IH; [exact H1 | ].
    intros seen' Hs. apply H2. intros x [Hx | Hx]; apply Hs.
    + left. now apply list_elem_of_further.
    + apply elem_of_cons in Hx. destruct Hx as [-> | Hx];
        [left; apply list_elem_of_here | now right].
  - destruct H1 as [Hp H1]. split; [exact Hp | ].
    apply IH; [exact H1 | exact H2].
Qed.

Lemma accesses_found_creates l : forall seen,
  accessed_paths l = [] -> accesses_found seen l.
Proof.
  induction l as [ | [p | p] l IH]; intros seen H; simpl in *.
  - exact I.
  - now apply IH.
  - discriminate.
Qed.

Lemma accesses_found_accesses {X : Type} seen (g : X -> fs_path) (l : list X) :
  Forall (fun x => g x ∈ seen) l ->
  accesses_found seen (map (fun x => op_access (g x)) l).
Proof.
  induction 1 as [ | p ps Hp _ IH]; simpl; [exact I | split; assumption].
Qed.

Lemma accessed_paths_app l1 l2 :
  accessed_paths (l1 ++ l2) = accessed_paths l1 ++ accessed_paths l2.
Proof. unfold accessed_paths. apply omap_app. Qed.

Lemma accessed_flat_map_nil {X : Type} (f : X -> list tree_op) (l : list X) :
  (forall x, x ∈ l -> accessed_paths (f x) = []) ->
  accessed_paths (flat_map f l) = [].
Proof.
  induction l as [ | x l IH]; intros Hf; simpl; [reflexivity | ].
  rewrite accessed_paths_app, Hf, IH; [reflexivity | | apply list_elem_of_here].
  intros y Hy. apply Hf. now apply list_elem_of_further.
Qed.

Lemma accessed_subtree_ops root rel : accessed_paths (subtree_ops root rel) = [].
Proof. induction rel as [ | p rel IH]; simpl; [reflexivity | exact IH]. Qed.

Lemma accessed_dboard_ops env db : accessed_paths (dboard_ops env db) = [].
Proof.
  unfold dboard_ops. rewrite !accessed_paths_app.
  rewrite !accessed_flat_map_nil by (intros; apply accessed_subtree_ops).
  reflexivity.
Qed.

Lemma accessed_rx_dsp_ops_later start n :
  (0 < start)%nat -> accessed_paths (flat_map rx_dsp_ops (seq start n)) = [].
Proof.
  intros Hs. apply accessed_flat_map_nil. intros k Hk.
  apply elem_of_seq in Hk. unfold rx_dsp_ops.
  rewrite accessed_paths_app, decide_False by lia. reflexivity.
Qed.

Lemma accesses_found_rx_dsp_ops n seen :
  accesses_found seen (flat_map rx_dsp_ops (seq 0 n)).
Proof.
  destruct n as [ | n]; [exact I | ].
  cbn [seq flat_map]. apply accesses_found_app.
  - simpl. split; [apply list_elem_of_here | exact I].
  - intros seen' _. apply accesses_found_creates.
    apply accessed_rx_dsp_ops_later. lia.
Qed.

Lemma stream_cmd_access_order env : accesses_found [] (usrp1_impl_tree_ops env).
Proof.
  unfold usrp1_impl_tree_ops.
  apply accesses_found_app; [now apply accesses_found_creates | intros s1 _].
  apply accesses_found_app;
    [apply accesses_found_creates, accessed_flat_map_nil; reflexivity
    | intros s2 _].
  apply accesses_found_app; [now apply accesses_found_creates | intros s3 _].
  apply accesses_found_app; [apply accesses_found_rx_dsp_ops | intros s4 _].
  apply accesses_found_creates. rewrite !accessed_paths_app.
  rewrite (accessed_flat_map_nil tx_dsp_ops) by reflexivity.
  rewrite (accessed_flat_map_nil (dboard_ops env))
    by (intros; apply accessed_dboard_ops).
  reflexivity.
Qed.

(** X13. Inside the population of the tree the constructor performs a single
    access, the one that subscribes the stream command of DSP 0, and none
    when there is no DDC; that access comes after the creation of its node. *)
Theorem stream_cmd_access_once (env : usrp1_env) :
  accessed_paths (usrp1_impl_tree_ops env)
    = (if decide (get_num_ddcs env = 0%nat) then []
       else [mb_path ++ ["rx_dsps"; "0"; "stream_cmd"]%string]) /\
  accesses_found [] (usrp1_impl_tree_ops env).
Proof.
  split.
  - unfold usrp1_impl_tree_ops. rewrite !accessed_paths_app.
    rewrite (accessed_flat_map_nil tx_dsp_ops) by reflexivity.
    rewrite (accessed_flat_map_nil (dboard_ops env))
      by (intros; apply accessed_dboard_ops).
    rewrite (accessed_flat_map_nil codec_ops) by reflexivity.
    destruct (get_num_ddcs env) as [ | n]; [reflexivity | ].
    cbn [seq flat_map]. rewrite accessed_paths_app.
    rewrite accessed_rx_dsp_ops_later by lia. reflexivity.
  - apply stream_cmd_access_order.
Qed.

(** ** The last part of the constructor *)

Lemma children_flat_map {X : Type} p (f : X -> list tree_op)
    (g : X -> list string) (l : list X) :
  (forall x, omap (child_segment p) (created_paths (f x)) = g x) ->
  omap (child_segment p) (created_paths (flat_map f l)) = flat_map g l.
Proof.
  intros Hf. induction l as [ | x l IH]; simpl; [reflexivity | ].
  rewrite created_paths_app, omap_app, Hf, IH. reflexivity.
Qed.

Lemma flat_map_nil {X Y : Type} (l : list X) :
  flat_map (fun _ : X => @nil Y) l = [].
Proof. induction l as [ | x l IH]; simpl; trivial. Qed.

Lemma children_subtree_ops p db dir name rel :
  p = mb_path ++ ["rx_dsps"%string] \/ p = mb_path ++ ["tx_dsps"%string] ->
  omap (child_segment p)
    (created_paths (subtree_ops (mb_path ++ ["dboards"%string; db; dir; name]) rel))
  = [].
Proof.
  intros [-> | ->]; induction rel as [ | q rel IH]; simpl; trivial.
Qed.

Lemma children_dboard_ops p env db :
  p = mb_path ++ ["rx_dsps"%string] \/ p = mb_path ++ ["tx_dsps"%string] ->
  omap (child_segment p) (created_paths (dboard_ops env db)) = [].
Proof.
  intros Hp. unfold dboard_ops. rewrite !created_paths_app, !omap_app.
  rewrite !(children_flat_map p _ (fun _ => []))
    by (intros; now apply children_subtree_ops).
  rewrite !flat_map_nil. destruct Hp as [-> | ->]; reflexivity.
Qed.

Lemma children_of_rx_dsps env :
  omap (child_segment (mb_path ++ ["rx_dsps"%string]))
       (created_paths (usrp1_impl_tree_ops env))
  = flat_map (fun k : nat => replicate 4 (pretty k)) (seq 0 (get_num_ddcs env)).
Proof.
  unfold usrp1_impl_tree_ops. rewrite !created_paths_app, !omap_app.
  rewrite (children_flat_map _ codec_ops (fun _ => [])) by reflexivity.
  rewrite (children_flat_map _ tx_dsp_ops (fun _ => [])) by reflexivity.
  rewrite (children_flat_map _ (dboard_ops env) (fun _ => []))
    by (intros; apply children_dboard_ops; now left).
  rewrite (children_flat_map _ rx_dsp_ops (fun k : nat => replicate 4 (pretty k))).
  - rewrite !flat_map_nil, app_nil_r. reflexivity.
  - intros k. unfold rx_dsp_ops. rewrite created_paths_app, omap_app.
    destruct (decide (k = 0%nat)); reflexivity.
Qed.

Lemma children_of_tx_dsps env :
  omap (child_segment (mb_path ++ ["tx_dsps"%string]))
       (created_paths (usrp1_impl_tree_ops env))
  = flat_map (fun k : nat => replicate 3 (pretty k)) (seq 0 (get_num_ducs env)).
Proof.
  unfold usrp1_impl_tree_ops. rewrite !created_paths_app, !omap_app.
  rewrite (children_flat_map _ codec_ops (fun _ => [])) by reflexivity.
  rewrite (children_flat_map _ (dboard_ops env) (fun _ => []))
    by (intros; apply children_dboard_ops; now right).
  rewrite (children_flat_map _ tx_dsp_ops (fun k : nat => replicate 3 (pretty k)))
    by reflexivity.
  rewrite (children_flat_map _ rx_dsp_ops (fun _ => [])).
  - rewrite !flat_map_nil, app_nil_r. reflexivity.
  - intros k. unfold rx_dsp_ops. rewrite created_paths_app, omap_app.
    destruct (decide (k = 0%nat)); reflexivity.
Qed.

Lemma elem_of_flat_map_replicate (c n : nat) (x : string) : forall s : nat,
  x ∈ flat_map (fun k : nat => replicate (S c) (pretty k)) (seq s n) <->
  x ∈ (pretty <$> seq s n : list string).
Proof.
  induction n as [ | n IH]; intros s; cbn [seq flat_map fmap list_fmap].
  - reflexivity.
  - rewrite elem_of_app, elem_of_cons, IH. split.
    + intros [H | H]; [left | now right].
      apply elem_of_replicate in H. apply H.
    + intros [-> | H]; [left | now right]. apply list_elem_of_here.
Qed.

Lemma tree_list_dsps (c n : nat) (nodes : list fs_path) p :
  omap (child_segment p) nodes
    = flat_map (fun k : nat => replicate (S c) (pretty k)) (seq 0 n) ->
  tree_list nodes p ≡ₚ pretty <$> seq 0 n.
Proof.
  intros Hc. unfold tree_list. rewrite merge_sort_Permutation, Hc.
  apply NoDup_Permutation.
  - apply NoDup_remove_dups.
  - apply NoDup_fmap_2; [apply _ | apply NoDup_seq].
  - intros x. rewrite elem_of_remove_dups. apply elem_of_flat_map_replicate.
Qed.

Lemma created_flat_map_elem {X : Type} (f : X -> list tree_op) (l : list X) x p :
  x ∈ l -> p ∈ created_paths (f x) -> p ∈ created_paths (flat_map f l).
Proof.
  induction l as [ | y l IH]; intros Hx Hp; [inversion Hx | ].
  simpl. rewrite created_paths_app, elem_of_app.
  apply elem_of_cons in Hx. destruct Hx as [<- | Hx]; [now left | right; now apply IH].
Qed.

Lemma rx_rate_created env (k : nat) :
  (k < get_num_ddcs env)%nat ->
  mb_path ++ ["rx_dsps"%string; pretty k; "rate"%string; "value"%string]
    ∈ created_paths (usrp1_impl_tree_ops env).
Proof.
  intros Hk. unfold usrp1_impl_tree_ops. rewrite !created_paths_app, !elem_of_app.
  right. right. right. left.
  apply (created_flat_map_elem rx_dsp_ops _ k).
  - apply elem_of_seq. lia.
  - unfold rx_dsp_ops. rewrite created_paths_app. apply elem_of_app. left.
    apply list_elem_of_here.
Qed.

Lemma tx_rate_created env (k : nat) :
  (k < get_num_ducs env)%nat ->
  mb_path ++ ["tx_dsps"%string; pretty k; "rate"%string; "value"%string]
    ∈ created_paths (usrp1_impl_tree_ops env).
Proof.
  intros Hk. unfold usrp1_impl_tree_ops. rewrite !created_paths_app, !elem_of_app.
  do 5 right. left.
  apply (created_flat_map_elem tx_dsp_ops _ k).
  - apply elem_of_seq. lia.
  - apply list_elem_of_here.
Qed.

Lemma subdev_spec_created env :
  mb_path ++ ["rx_subdev_spec"%string] ∈ created_paths (usrp1_impl_tree_ops env) /\
  mb_path ++ ["tx_subdev_spec"%string] ∈ created_paths (usrp1_impl_tree_ops env).
Proof.
  unfold usrp1_impl_tree_ops. rewrite !created_paths_app, !elem_of_app.
  split; right; right; left.
  - apply list_elem_of_further, list_elem_of_here.
  - do 2 apply list_elem_of_further. apply list_elem_of_here.
Qed.

(** X14. The last part of the constructor lists, under [rx_dsps] and
    [tx_dsps], exactly one name per DDC and per DUC, so it sets the host rate
    of every DSP once; and every access of the whole constructor, this part
    included, names a node the constructor has created before. *)
Theorem post_init_accesses_found (env : usrp1_env) :
  tree_list (created_paths (usrp1_impl_tree_ops env)) (mb_path ++ ["rx_dsps"%string])
    ≡ₚ pretty <$> seq 0 (get_num_ddcs env) /\
  tree_list (created_paths (usrp1_impl_tree_ops env)) (mb_path ++ ["tx_dsps"%string])
    ≡ₚ pretty <$> seq 0 (get_num_ducs env) /\
  accesses_found [] (usrp1_impl_tree_ops env ++ post_init_ops env).
Proof.
  pose proof (tree_list_dsps 3 _ _ _ (children_of_rx_dsps env)) as Hrx.
  pose proof (tree_list_dsps 2 _ _ _ (children_of_tx_dsps env)) as Htx.
  split; [exact Hrx | split; [exact Htx | ]].
  apply accesses_found_app; [apply stream_cmd_access_order | ].
  intros seen Hseen. unfold post_init_ops. cbv zeta.
  destruct (subdev_spec_created env) as [Hrs Hts].
  apply accesses_found_app.
  { apply accesses_found_accesses, Forall_forall. intros name Hn.
    rewrite Hrx in Hn. apply list_elem_of_fmap in Hn. destruct Hn as (k & -> & Hk).
    apply elem_of_seq in Hk. apply Hseen. right. apply rx_rate_created. lia. }
  intros s1 Hs1. apply accesses_found_app.
  { apply accesses_found_accesses, Forall_forall. intros name Hn.
    rewrite Htx in Hn. apply list_elem_of_fmap in Hn. destruct Hn as (k & -> & Hk).
    apply elem_of_seq in Hk. apply Hs1. left. apply Hseen. right.
    apply tx_rate_created. lia. }
  intros s2 Hs2. apply accesses_found_app.
  { assert (Hin : mb_path ++ ["rx_subdev_spec"%string] ∈ s2).
    { apply Hs2. left. apply Hs1. left. apply Hseen. now right. }
    clear - Hin. case_decide; cbn [accesses_found]; [ | exact I].
    split; [exact Hin | exact I]. }
  intros s3 Hs3.
  assert (Hin : mb_path ++ ["tx_subdev_spec"%string] ∈ s3).
  { apply Hs3. left. apply Hs2. left. apply Hs1. left. apply Hseen. now right. }
  clear - Hin. case_decide; cbn [accesses_found]; [ | exact I].
  split; [exact Hin | exact I].
Qed.

(** ** No node is created twice *)

Lemma NoDup_app_by {A : Type} (f : A -> nat) (k : nat) (l1 l2 : list A) :
  Forall (fun x => f x < k)%nat l1 -> Forall (fun x => k <= f x)%nat l2 ->
  NoDup l1 -> NoDup l2 -> NoDup (l1 ++ l2).
Proof.
  intros H1 H2 N1 N2. apply NoDup_app. split; [exact N1 | split; [ | exact N2]].
  intros x Hx1 Hx2.
  pose proof (proj1 (Forall_forall _ _) H1 x Hx1).
  pose proof (proj1 (Forall_forall _ _) H2 x Hx2). simpl in *. lia.
Qed.

Lemma elem_of_flat_map {X A : Type} (g : X -> list A) (l : list X) (p : A) :
  p ∈ flat_map g l <-> exists x, x ∈ l /\ p ∈ g x.
Proof.
  induction l as [ | y l IH]; simpl.
  - split; [intros H; inversion H | intros (x & H & _); inversion H].
  - rewrite elem_of_app, IH. split.
    + intros [H | (x & Hx & Hp)].
      * exists y. split; [apply list_elem_of_here | exact H].
      * exists x. split; [now apply list_elem_of_further | exact Hp].
    + intros (x & Hx & Hp). apply elem_of_cons in Hx.
      destruct Hx as [-> | Hx]; [now left | right; eauto].
Qed.

(** Lists produced for distinct indices are disjoint when every element
    records its index. *)
Lemma NoDup_flat_map_by {X A K : Type} (key : A -> K) (h : X -> K)
    (g : X -> list A) (l : list X) :
  (forall x y, h x = h y -> x = y) ->
  (forall x p, p ∈ g x -> key p = h x) ->
  (forall x, NoDup (g x)) ->
  NoDup l -> NoDup (flat_map g l).
Proof.
  intros Hinj Hkey Hg Hl. induction Hl as [ | x l Hx Hl IH]; simpl.
  - constructor.
  - apply NoDup_app. split; [apply Hg | split; [ | exact IH]].
    intros p Hp1 Hp2. apply elem_of_flat_map in Hp2.
    destruct Hp2 as (y & Hy & Hp2).
    apply Hkey in Hp1, Hp2. rewrite Hp1 in Hp2. apply Hinj in Hp2.
    subst y. contradiction.
Qed.

Lemma created_paths_flat_map {X : Type} (f : X -> list tree_op) (l : list X) :
  created_paths (flat_map f l) = flat_map (fun x => created_paths (f x)) l.
Proof.
  induction l as [ | x l IH]; simpl; [reflexivity | ].
  now rewrite created_paths_app, IH.
Qed.

Lemma created_subtree_ops root rel :
  created_paths (subtree_ops root rel) = map (app root) rel.
Proof. induction rel as [ | p rel IH]; simpl; [reflexivity | now rewrite IH]. Qed.

Lemma Forall_created_flat_map {X : Type} (P : fs_path -> Prop)
    (f : X -> list tree_op) (l : list X) :
  (forall x, Forall P (created_paths (f x))) ->
  Forall P (created_paths (flat_map f l)).
Proof.
  intros Hf. induction l as [ | x l IH]; simpl.
  - constructor.
  - rewrite created_paths_app. apply Forall_app. split; [apply Hf | exact IH].
Qed.

Ltac all_by_reflexivity :=
  repeat first [ apply Forall_nil_2 | apply Forall_cons_2; [reflexivity | ] ].

Ltac all_by_lia :=
  repeat first [ apply Forall_nil_2 | apply Forall_cons_2; [simpl; lia | ] ].

Lemma NoDup_by_key {A K : Type} (key : A -> K) (l : list A) :
  NoDup (map key l) -> NoDup l.
Proof. apply (NoDup_fmap_1 key). Qed.

Lemma NoDup_closed {A : Type} `{EqDecision A} (l : list A) :
  bool_decide (NoDup l) = true -> NoDup l.
Proof. apply bool_decide_eq_true_1. Qed.

Lemma NoDup_rx_dsps n :
  NoDup (created_paths (flat_map rx_dsp_ops (seq 0 n))).
Proof.
  rewrite created_paths_flat_map.
  apply (NoDup_flat_map_by (fun p : fs_path => p !! 3%nat)
           (fun k : nat => Some (pretty k))).
  - intros x y [= H]. now apply (inj pretty) in H.
  - intros k p Hp. unfold rx_dsp_ops in Hp. rewrite created_paths_app in Hp.
    apply elem_of_app in Hp. destruct Hp as [Hp | Hp].
    + simpl in Hp. repeat (apply elem_of_cons in Hp; destruct Hp as [-> | Hp];
        [reflexivity | ]). inversion Hp.
    + destruct (decide (k = 0%nat)); inversion Hp.
  - intros k. unfold rx_dsp_ops. rewrite created_paths_app.
    replace (created_paths (if decide (k = 0%nat) then _ else [])) with (@nil fs_path)
      by (destruct (decide (k = 0%nat)); reflexivity).
    rewrite app_nil_r. apply (NoDup_by_key (drop 4)).
    apply NoDup_closed. reflexivity.
  - apply NoDup_seq.
Qed.

Lemma NoDup_tx_dsps n :
  NoDup (created_paths (flat_map tx_dsp_ops (seq 0 n))).
Proof.
  rewrite created_paths_flat_map.
  apply (NoDup_flat_map_by (fun p : fs_path => p !! 3%nat)
           (fun k : nat => Some (pretty k))).
  - intros x y [= H]. now apply (inj pretty) in H.
  - intros k p Hp. simpl in Hp.
    repeat (apply elem_of_cons in Hp; destruct Hp as [-> | Hp]; [reflexivity | ]).
    inversion Hp.
  - intros k. apply (NoDup_by_key (drop 4)). apply NoDup_closed. reflexivity.
  - apply NoDup_seq.
Qed.

Section NoDupDboards.
Variable env : usrp1_env.
Hypothesis rx_names_NoDup : forall db, NoDup (get_rx_subdev_names env db).
Hypothesis tx_names_NoDup : forall db, NoDup (get_tx_subdev_names env db).
Hypothesis populate_NoDup : forall db tx name,
  NoDup (populate_prop_tree_from_subdev env db tx name).

Lemma NoDup_frontends db dir tx names :
  NoDup names ->
  NoDup (created_paths
           (flat_map (fun name =>
              subtree_ops (mb_path ++ ["dboards"%string; db; dir; name])
                          (populate_prop_tree_from_subdev env db tx name))
              names)).
Proof.
  intros Hn. rewrite created_paths_flat_map.
  apply (NoDup_flat_map_by (fun p : fs_path => p !! 5%nat) (fun name => Some name)).
  - intros x y [= H]. exact H.
  - intros name p Hp. rewrite created_subtree_ops in Hp.
    apply list_elem_of_fmap in Hp. destruct Hp as (q & -> & _). reflexivity.
  - intros name. rewrite created_subtree_ops.
    apply NoDup_fmap_2; [ | apply populate_NoDup].
    intros q1 q2 H. now apply app_inv_head in H.
  - exact Hn.
Qed.

Lemma frontends_key db dir tx names :
  Forall (fun p : fs_path => p !! 3%nat = Some db /\ p !! 4%nat = Some dir)
    (created_paths
       (flat_map (fun name =>
          subtree_ops (mb_path ++ ["dboards"%string; db; dir; name])
                      (populate_prop_tree_from_subdev env db tx name))
          names)).
Proof.
  apply Forall_created_flat_map. intros name. rewrite created_subtree_ops.
  apply Forall_fmap, Forall_forall. intros q _. split; reflexivity.
Qed.

Lemma NoDup_dboard_ops db : NoDup (created_paths (dboard_ops env db)).
Proof.
  unfold dboard_ops. rewrite !created_paths_app.
  apply (NoDup_app_by frontend_block 1).
  - unfold frontend_block. all_by_lia.
  - apply Forall_app. split.
    + eapply Forall_impl; [apply frontends_key | ].
      intros p [_ H]. unfold frontend_block. rewrite H. simpl. lia.
    + eapply Forall_impl; [apply frontends_key | ].
      intros p [_ H]. unfold frontend_block. rewrite H. simpl. lia.
  - apply (NoDup_by_key (fun p : fs_path => p !! 4%nat)).
    apply NoDup_closed. reflexivity.
  - apply (NoDup_app_by frontend_block 2).
    + eapply Forall_impl; [apply frontends_key | ].
      intros p [_ H]. unfold frontend_block. rewrite H. simpl. lia.
    + eapply Forall_impl; [apply frontends_key | ].
      intros p [_ H]. unfold frontend_block. rewrite H. simpl. lia.
    + apply NoDup_frontends, rx_names_NoDup.
    + apply NoDup_frontends, tx_names_NoDup.
Qed.

Lemma dboard_ops_key db :
  Forall (fun p : fs_path => p !! 3%nat = Some db) (created_paths (dboard_ops env db)).
Proof.
  unfold dboard_ops. rewrite !created_paths_app.
  repeat (apply Forall_app; split).
  - all_by_reflexivity.
  - eapply Forall_impl; [apply frontends_key | ]. intros p [H _]. exact H.
  - eapply Forall_impl; [apply frontends_key | ]. intros p [H _]. exact H.
Qed.

Lemma NoDup_dboards : NoDup (created_paths (flat_map (dboard_ops env) dbc_keys)).
Proof.
  rewrite created_paths_flat_map.
  apply (NoDup_flat_map_by (fun p : fs_path => p !! 3%nat) (fun db => Some db)).
  - intros x y [= H]. exact H.
  - intros db p Hp. exact (proj1 (Forall_forall _ _) (dboard_ops_key db) p Hp).
  - apply NoDup_dboard_ops.
  - apply NoDup_closed. reflexivity.
Qed.
End NoDupDboards.

Lemma NoDup_blocks_app (a b c d : nat) (l1 l2 : list fs_path) :
  (b < c)%nat -> (a <= c)%nat -> (b <= d)%nat ->
  NoDup l1 /\ Forall (fun p => a <= creation_block p <= b)%nat l1 ->
  NoDup l2 /\ Forall (fun p => c <= creation_block p <= d)%nat l2 ->
  NoDup (l1 ++ l2) /\ Forall (fun p => a <= creation_block p <= d)%nat (l1 ++ l2).
Proof.
  intros Hbc Hac Hbd [N1 F1] [N2 F2]. split.
  - apply (NoDup_app_by creation_block c); trivial.
    + eapply Forall_impl; [exact F1 | ]. simpl. intros p Hp. lia.
    + eapply Forall_impl; [exact F2 | ]. simpl. intros p Hp. lia.
  - apply Forall_app. split.
    + eapply Forall_impl; [exact F1 | ]. simpl. intros p Hp. lia.
    + eapply Forall_impl; [exact F2 | ]. simpl. intros p Hp. lia.
Qed.

Lemma block_rx_dsp_ops k :
  Forall (fun p => 3 <= creation_block p <= 3)%nat (created_paths (rx_dsp_ops k)).
Proof.
  unfold rx_dsp_ops. rewrite created_paths_app. apply Forall_app. split.
  - all_by_lia.
  - destruct (decide (k = 0%nat)); constructor.
Qed.

Lemma block_tx_dsp_ops k :
  Forall (fun p => 5 <= creation_block p <= 5)%nat (created_paths (tx_dsp_ops k)).
Proof. all_by_lia. Qed.

Lemma block_dboard_ops env db :
  Forall (fun p => 7 <= creation_block p <= 7)%nat (created_paths (dboard_ops env db)).
Proof.
  unfold dboard_ops. rewrite !created_paths_app.
  repeat (apply Forall_app; split).
  - all_by_lia.
  - apply Forall_created_flat_map. intros name. rewrite created_subtree_ops.
    apply Forall_fmap, Forall_forall. intros q _. simpl. lia.
  - apply Forall_created_flat_map. intros name. rewrite created_subtree_ops.
    apply Forall_fmap, Forall_forall. intros q _. simpl. lia.
Qed.

(** X15. The constructor never creates the same path twice, provided each
    daughterboard manager reports distinct subdevice names and populates
    each subdevice subtree with distinct paths. *)
Theorem created_paths_NoDup (env : usrp1_env) :
  (forall db, NoDup (get_rx_subdev_names env db)) ->
  (forall db, NoDup (get_tx_subdev_names env db)) ->
  (forall db tx name, NoDup (populate_prop_tree_from_subdev env db tx name)) ->
  NoDup (created_paths (usrp1_impl_tree_ops env)).
Proof.
  intros Hrx Htx Hpop.
  unfold usrp1_impl_tree_ops. rewrite !created_paths_app.
  apply (NoDup_blocks_app 0 0 1 7); try lia.
  { split; [apply NoDup_closed; reflexivity | all_by_lia]. }
  apply (NoDup_blocks_app 1 1 2 7); try lia.
  { split; [apply NoDup_closed; reflexivity | ].
    apply Forall_created_flat_map. intros db. all_by_lia. }
  apply (NoDup_blocks_app 2 2 3 7); try lia.
  { split; [apply NoDup_closed; reflexivity | all_by_lia]. }
  apply (NoDup_blocks_app 3 3 4 7); try lia.
  { split; [apply NoDup_rx_dsps | ].
    apply Forall_created_flat_map, block_rx_dsp_ops. }
  apply (NoDup_blocks_app 4 4 5 7); try lia.
  { split; [apply NoDup_closed; reflexivity | all_by_lia]. }
  apply (NoDup_blocks_app 5 5 6 7); try lia.
  { split; [apply NoDup_tx_dsps | ].
    apply Forall_created_flat_map, block_tx_dsp_ops. }
  apply (NoDup_blocks_app 6 6 7 7); try lia.
  { split; [apply NoDup_closed; reflexivity | all_by_lia]. }
  split; [now apply NoDup_dboards | ].
  apply Forall_created_flat_map, block_dboard_ops.
Qed.

Lemma created_paths_NoDup_witness :
  NoDup (created_paths (usrp1_impl_tree_ops example_env)).
Proof.
  apply (created_paths_NoDup example_env).
  - intros db. apply NoDup_closed. reflexivity.
  - intros db. apply NoDup_closed. reflexivity.
  - intros db tx name. apply NoDup_closed. reflexivity.
Defined.
